(** * icy-parser: the ICY metadata demultiplexer and decoder

    A shallow embedding of [IcyParser.parseOnce] and of the helpers
    [concat] and [parseMetadata], with the properties of the extraction
    loop, of the NUL stripping and of the title decoder.

    Conventions of the embedding:
    - a [Uint8Array] is a [list byte]; a JavaScript string is the list of
      its UTF-16 code units;
    - a JavaScript number that the code computes is an integer or [NaN]
      (type [number]); an interval header whose text reads as a fraction
      or as an infinity is outside the embedding;
    - the body of the response is present, so that [getReader] succeeds;
    - [reader.read()] is the k-th answer of a pull source, [k] being the
      number of reads performed so far; the awaited calls are sequential,
      so the promise plumbing is left out;
    - loops take a step budget; [Pending] is the loop still running when
      the budget is spent. *)

From Stdlib Require Import ZArith NArith List Bool Lia String Ascii.
From Stdlib.Strings Require Import Byte.
Import ListNotations.
Open Scope Z_scope.

(** ** JavaScript numbers, as far as the parser computes with them *)

Inductive number : Type :=
| NaN
| Int (z : Z).

(** [!n] is true exactly for [NaN] and for zero. *)
Definition truthy (n : number) : bool :=
  match n with
  | NaN => false
  | Int z => negb (z =? 0)
  end.

Definition js_lt (a b : number) : bool :=
  match a, b with
  | Int x, Int y => x <? y
  | _, _ => false
  end.

Definition js_gt (a b : number) : bool := js_lt b a.

Definition js_sub (a b : number) : number :=
  match a, b with
  | Int x, Int y => Int (x - y)
  | _, _ => NaN
  end.

Definition js_mul (a b : number) : number :=
  match a, b with
  | Int x, Int y => Int (x * y)
  | _, _ => NaN
  end.

(** ToIntegerOrInfinity, used by [slice] on its arguments. *)
Definition ToInteger (n : number) : Z :=
  match n with
  | NaN => 0
  | Int z => z
  end.

(** ** Byte arrays *)

Abbreviation bytes := (list byte) (only parsing).

Definition byte_value (b : byte) : Z := Z.of_N (Byte.to_N b).

Definition length_of (a : bytes) : Z := Z.of_nat (List.length a).

(** [a.slice(start, end)]; [None] is an omitted [end]. Negative indices
    count from the end, and both ends are clamped to the array. *)
Definition relative_index (len rel : Z) : Z :=
  if rel <? 0 then Z.max (len + rel) 0 else Z.min rel len.

Definition slice (a : bytes) (start : number) (end_ : option number) : bytes :=
  let len := length_of a in
  let k := relative_index len (ToInteger start) in
  let final := match end_ with
               | None => len
               | Some e => relative_index len (ToInteger e)
               end in
  firstn (Z.to_nat (final - k)) (skipn (Z.to_nat k) a).

(** [a[0]]: [undefined] on an empty array. *)
Definition at0 (a : bytes) : option byte := nth_error a 0.

(** [lengthByte! * 16]: [undefined] converts to [NaN]. *)
Definition times16 (lengthByte : option byte) : number :=
  js_mul (match lengthByte with
          | Some b => Int (byte_value b)
          | None => NaN
          end) (Int 16).

(** ** JavaScript strings *)

Abbreviation code_unit := N (only parsing).
Abbreviation jsstring := (list N) (only parsing).

(** An ASCII literal as a JavaScript string. *)
Definition js (s : string) : jsstring := map N_of_ascii (list_ascii_of_string s).

(** ** [new TextDecoder().decode]: the UTF-8 decoder of the Encoding standard *)

Module TextDecoder.

Open Scope N_scope.

(** The decoder's state: the code point being assembled, the number of
    continuation bytes still expected, and the bounds of the next one. *)
Record state : Type := mkState {
  code_point : N;
  bytes_needed : nat;
  lower : N;
  upper : N
}.

Definition init : state := mkState 0 0 0x80 0xBF.

Definition between (lo b hi : N) : bool := (lo <=? b) && (b <=? hi).

(** A byte read while no sequence is open. *)
Definition lead (b : N) : state * list N :=
  if b <=? 0x7F then (init, [b])
  else if between 0xC2 b 0xDF then (mkState (N.land b 0x1F) 1 0x80 0xBF, [])
  else if between 0xE0 b 0xEF then
    (mkState (N.land b 0xF) 2
       (if b =? 0xE0 then 0xA0 else 0x80)
       (if b =? 0xED then 0x9F else 0xBF), [])
  else if between 0xF0 b 0xF4 then
    (mkState (N.land b 0x7) 3
       (if b =? 0xF0 then 0x90 else 0x80)
       (if b =? 0xF4 then 0x8F else 0xBF), [])
  else (init, [0xFFFD]).

(** One byte. A byte that cannot continue the open sequence yields
    U+FFFD and is then read again as a first byte. *)
Definition step (st : state) (b : N) : state * list N :=
  match bytes_needed st with
  | O => lead b
  | S n =>
      if between (lower st) b (upper st) then
        let cp := N.lor (N.shiftl (code_point st) 6) (N.land b 0x3F) in
        match n with
        | O => (init, [cp])
        | S _ => (mkState cp n 0x80 0xBF, [])
        end
      else
        let (st', out) := lead b in (st', 0xFFFD :: out)
  end.

(** End of input: an open sequence yields U+FFFD. *)
Definition flush (st : state) : list N :=
  match bytes_needed st with
  | O => []
  | S _ => [0xFFFD]
  end.

Fixpoint run (st : state) (bs : list N) : list N :=
  match bs with
  | [] => flush st
  | b :: bs' => let (st', out) := step st b in out ++ run st' bs'
  end.

(** A leading U+FEFF is dropped ([ignoreBOM] is false by default). *)
Definition skip_bom (cps : list N) : list N :=
  match cps with
  | cp :: rest => if cp =? 0xFEFF then rest else cps
  | [] => []
  end.

(** A code point as UTF-16 code units. *)
Definition utf16 (cp : N) : list code_unit :=
  if cp <? 0x10000 then [cp]
  else [0xD800 + N.shiftr (cp - 0x10000) 10;
        0xDC00 + N.land (cp - 0x10000) 0x3FF].

Definition decode (a : bytes) : jsstring :=
  flat_map utf16 (skip_bom (run init (map Byte.to_N a))).

End TextDecoder.

(** ** The replacement of the pattern NUL+ END by the empty string

    This is the call of [replace] at the end of [parseOnce]. The search tries each start index from the left; at an index the
    pattern matches when the rest of the string is a non-empty run of
    U+0000, and the match is replaced by the empty string. *)

Definition is_nul (c : code_unit) : bool := (c =? 0)%N.

Fixpoint replace_trailing_nul (s : jsstring) : jsstring :=
  match s with
  | [] => []
  | c :: s' =>
      if is_nul c && forallb is_nul s' then []
      else c :: replace_trailing_nul s'
  end.

(** ** src/utils/helpers.ts *)

Module helpers.

(** [concat(a, b)]: a new array holding [a] then [b]. *)
Definition concat (a b : bytes) : bytes := a ++ b.

Definition quote : code_unit := 39%N.

Definition key : jsstring := js "StreamTitle='".

Fixpoint starts_with (p s : jsstring) : option jsstring :=
  match p, s with
  | [], _ => Some s
  | _ :: _, [] => None
  | x :: p', y :: s' => if (x =? y)%N then starts_with p' s' else None
  end.

(** The longest run of code units other than the quote, and what
    follows it: the greedy starred class of the pattern. *)
Fixpoint until_quote (s : jsstring) : jsstring * jsstring :=
  match s with
  | [] => ([], [])
  | c :: s' =>
      if (c =? quote)%N then ([], s)
      else let (v, rest) := until_quote s' in (c :: v, rest)
  end.

(** The pattern of [parseMetadata] (the key, an opening quote, a
    captured run without quotes, a closing quote) tried at the start
    of [s]: the capture group when it matches. Giving back code units of the greedy run
    cannot help, as none of them is a quote. *)
Definition match_here (s : jsstring) : option jsstring :=
  match starts_with key s with
  | None => None
  | Some after =>
      let (v, rest) := until_quote after in
      match rest with
      | c :: _ => if (c =? quote)%N then Some v else None
      | [] => None
      end
  end.

(** [regex.exec(s)?.[1]]: the first start index, from the left, at
    which the pattern matches. *)
Fixpoint exec1 (s : jsstring) : option jsstring :=
  match match_here s with
  | Some v => Some v
  | None =>
      match s with
      | [] => None
      | _ :: s' => exec1 s'
      end
  end.

Record Parsed : Type := mkParsed { title : option jsstring }.

Definition parseMetadata (raw : jsstring) : Parsed :=
  {| title := exec1 raw |}.

End helpers.

(** ** The pull source and the effects of [parseOnce] *)

(** What [reader.read()] resolves to: a chunk, or the end of the stream
    ([{ value: undefined, done: true }]). *)
Inductive ReadResult : Type :=
| Chunk (v : bytes)
| EndOfStream.

Definition value (r : ReadResult) : option bytes :=
  match r with
  | Chunk v => Some v
  | EndOfStream => None
  end.

Definition done (r : ReadResult) : bool :=
  match r with
  | Chunk _ => false
  | EndOfStream => true
  end.

(** The body of a response: the answer to each successive read. *)
Definition Reader := nat -> ReadResult.

(** A body that delivers the given chunks and then ends. *)
Definition of_chunks (cs : list bytes) : Reader :=
  fun k => match nth_error cs k with
           | Some c => Chunk c
           | None => EndOfStream
           end.

Inductive IcyError : Type :=
| UnsupportedStream    (* "Stream does not support ICY metadata" *)
| StreamEndedEarly     (* "Stream ended before metadata was received" *)
| MetadataReadFailed.  (* "Failed to read metadata from stream" *)

Inductive Completion (A : Type) : Type :=
| Return (a : A)
| Throw (e : IcyError)
| Pending.

Arguments Return {A} a.
Arguments Throw {A} e.
Arguments Pending {A}.

(** What a call has done to the connection so far. *)
Record World : Type := mkWorld {
  reads : nat;      (* calls of [reader.read()] *)
  aborts : nat;     (* calls of [controller.abort()] *)
  releases : nat    (* calls of [reader.releaseLock()] *)
}.

Definition fresh : World := mkWorld 0 0 0.

Definition M (A : Type) : Type := World -> Completion A * World.

Definition ret {A} (a : A) : M A := fun w => (Return a, w).

Definition throw {A} (e : IcyError) : M A := fun w => (Throw e, w).

Definition pending {A} : M A := fun w => (Pending, w).

Definition bind {A B} (m : M A) (k : A -> M B) : M B :=
  fun w =>
    match m w with
    | (Return a, w') => k a w'
    | (Throw e, w') => (Throw e, w')
    | (Pending, w') => (Pending, w')
    end.

Notation "x <- m ;; k" := (bind m (fun x => k))
  (at level 61, m at next level, right associativity).
Notation "m ;;; k" := (bind m (fun _ => k))
  (at level 61, right associativity).

(** The world after one more read. *)
Definition advance (w : World) : World :=
  mkWorld (S (reads w)) (aborts w) (releases w).

Definition read (rd : Reader) : M ReadResult :=
  fun w => (Return (rd (reads w)), advance w).

Definition abort : M unit :=
  fun w => (Return tt, mkWorld (reads w) (S (aborts w)) (releases w)).

Definition releaseLock : M unit :=
  fun w => (Return tt, mkWorld (reads w) (aborts w) (S (releases w))).

(** [try { body } finally { fin }]: [fin] runs once [body] has completed,
    normally or not, and the completion of [body] is kept. *)
Definition try_finally {A} (body : M A) (fin : M unit) : M A :=
  fun w =>
    match body w with
    | (Pending, w') => (Pending, w')
    | (c, w') =>
        match fin w' with
        | (Return _, w'') => (c, w'')
        | (Throw e, w'') => (Throw e, w'')
        | (Pending, w'') => (Pending, w'')
        end
    end.

(** ** src/parser: [IcyParser.parseOnce] *)

(** The response of [fetch], as far as the extraction reads it: the number
    that the text of the [icy-metaint] header converts to ([None] when the
    header is absent), and the body. The other headers are copied into
    the result as they are and play no part below. *)
Record Response : Type := mkResponse {
  icy_metaint : option number;
  body : Reader
}.

(** [Number(res.headers.get("icy-metaint"))]: [get] answers [null] for an
    absent header, and [Number(null)] is zero. *)
Definition Number_header (h : option number) : number :=
  match h with
  | None => Int 0
  | Some n => n
  end.

(** The fields of [IcyMetadata] that come from the stream. *)
Record IcyMetadata : Type := mkIcyMetadata {
  raw : jsstring;
  title : option jsstring
}.

(** [while (received < metaint) { ... }]: the audio bytes before the
    first metadata block are counted and dropped; only the last chunk
    read is kept. *)
Fixpoint discardAudio (fuel : nat) (rd : Reader) (metaint : number)
    (received : Z) (leftover : bytes) : M (Z * bytes) :=
  if js_lt (Int received) metaint then
    match fuel with
    | O => pending
    | S fuel' =>
        r <- read rd ;;
        match done r, value r with
        | false, Some v =>
            discardAudio fuel' rd metaint (received + length_of v) v
        | _, _ => throw StreamEndedEarly
        end
    end
  else ret (received, leftover).

(** The start of the metadata block: the tail of the last chunk when it
    ran past the boundary, the next chunk otherwise. *)
Definition readMetaStart (rd : Reader) (overflow : number) (leftover : bytes)
    : M bytes :=
  if js_gt overflow (Int 0) then
    ret (slice leftover (js_sub (Int (length_of leftover)) overflow) None)
  else
    r <- read rd ;;
    match value r with
    | None => throw MetadataReadFailed
    | Some v => ret v
    end.

(** [while (metadata.length < metadataLength) { ... }]: further chunks are
    appended until the payload is complete or the source has no value. *)
Fixpoint accumulate (fuel : nat) (rd : Reader) (metadataLength : number)
    (metadata : bytes) : M bytes :=
  if js_lt (Int (length_of metadata)) metadataLength then
    match fuel with
    | O => pending
    | S fuel' =>
        r <- read rd ;;
        match value r with
        | None => ret metadata
        | Some v => accumulate fuel' rd metadataLength (helpers.concat metadata v)
        end
    end
  else ret metadata.

(** The raw string of a payload: cut to the declared length, decoded,
    and rid of its trailing NULs. *)
Definition rawOf (metadata : bytes) (metadataLength : number) : jsstring :=
  replace_trailing_nul
    (TextDecoder.decode (slice metadata (Int 0) (Some metadataLength))).

Definition recordOf (r : jsstring) : IcyMetadata :=
  {| raw := r; title := helpers.title (helpers.parseMetadata r) |}.

(** From the length byte on. *)
Definition readBlock (fuel : nat) (rd : Reader) (metaStart : bytes)
    : M IcyMetadata :=
  let lengthByte := at0 metaStart in
  let metadataLength := times16 lengthByte in
  metadata <- accumulate fuel rd metadataLength (slice metaStart (Int 1) None) ;;
  ret (recordOf (rawOf metadata metadataLength)).

(** After the audio loop: the block is located and read. *)
Definition locateBlock (fuel : nat) (rd : Reader) (metaint : number)
    (p : Z * bytes) : M IcyMetadata :=
  let received := fst p in
  let leftover := snd p in
  let overflow := js_sub (Int received) metaint in
  metaStart <- readMetaStart rd overflow leftover ;;
  readBlock fuel rd metaStart.

(** The body of the [try] block. *)
Definition extract (fuel : nat) (rd : Reader) (metaint : number)
    : M IcyMetadata :=
  p <- discardAudio fuel rd metaint 0 [] ;;
  locateBlock fuel rd metaint p.

(** [parseOnce]. The connection is open once [fetch] has resolved; the
    check of the interval stands before the [try] block, whose [finally]
    aborts the request and releases the reader. *)
Definition parseOnce (fuel : nat) (res : Response) : M IcyMetadata :=
  let metaint := Number_header (icy_metaint res) in
  if negb (truthy metaint) then throw UnsupportedStream
  else
    try_finally (extract fuel (body res) metaint)
                (abort ;;; releaseLock).

(** * Definitions for the statements *)

(** The completion of a call made on a fresh connection. *)
Definition outcome {A} (m : M A) : Completion A := fst (m fresh).

(** The world after the [finally] block. *)
Definition cleaned (w : World) : World :=
  mkWorld (reads w) (S (aborts w)) (S (releases w)).

(** An ASCII literal as bytes. *)
Definition ascii_bytes (s : string) : bytes :=
  map byte_of_ascii (list_ascii_of_string s).

Definition x00 : byte := Byte.x00.

Definition nonempty (c : bytes) : Prop := c <> [].

(** The response with interval [N] whose body is the chunks [cs]. *)
Definition stream (N : Z) (cs : list bytes) : Response :=
  mkResponse (Some (Int N)) (of_chunks cs).

(** From its [p]-th read on, the source answers with the chunks [cs] and
    then with the end of the stream. *)
Definition feeds (rd : Reader) (p : nat) (cs : list bytes) : Prop :=
  (forall i c, nth_error cs i = Some c -> rd (p + i)%nat = Chunk c)
  /\ rd (p + List.length cs)%nat = EndOfStream.

(** A source that keeps delivering empty chunks. *)
Definition stalled : Reader := fun _ => Chunk [].

(** A declared length: what [times16] can produce. *)
Definition declared (len : number) : Prop :=
  match len with
  | NaN => True
  | Int n => 0 <= n
  end.

(** The extraction read off the byte sequence: what it yields when the
    bytes [B] of the body are looked at as one sequence, [d] bytes of
    audio standing before the length byte. It serves to compare the runs
    of [parseOnce] on different chunkings of [B]. *)
Definition blockAt (d : Z) (B : bytes) : Completion IcyMetadata :=
  if length_of B <? d then Throw StreamEndedEarly
  else
    match skipn (Z.to_nat d) B with
    | [] => Throw MetadataReadFailed
    | lb :: payload => Return (recordOf (rawOf payload (times16 (Some lb))))
    end.

(** The errors a computation can raise. *)
Definition raises {A} (m : M A) (ok : IcyError -> Prop) : Prop :=
  forall w e, fst (m w) = Throw e -> ok e.

(** A computation that only reads leaves the abort and release counts
    as they were. *)
Definition only_reads {A} (m : M A) : Prop :=
  forall w, aborts (snd (m w)) = aborts w /\ releases (snd (m w)) = releases w.

(** The number of NUL code units of a string, and of NUL bytes of an
    array. *)
Definition nul_units (s : jsstring) : nat := List.length (filter is_nul s).

Definition nul_bytes (a : bytes) : nat :=
  List.length (filter (fun b => is_nul (Byte.to_N b)) a).

(** A string that is empty or ends in a code unit other than NUL. *)
Definition unpadded (s : jsstring) : Prop :=
  s = [] \/ exists pre c, s = pre ++ [c] /\ c <> 0%N.

Definition nz (c : N) : Prop := c <> 0%N.

(** What holds of the decoder's state between two bytes: no sequence is
    open, or the next byte is bounded as a continuation byte and the
    code point cannot come out as zero. *)
Definition wf (st : TextDecoder.state) : Prop :=
  TextDecoder.bytes_needed st = O
  \/ ((0x80 <= TextDecoder.lower st)%N /\ (TextDecoder.upper st <= 0xBF)%N
      /\ (TextDecoder.code_point st <> 0%N \/ (0x80 < TextDecoder.lower st)%N)).

(** Bodies and payloads on which the statements are tried. *)
Definition sample_full : list bytes :=
  [ascii_bytes "ab"; [Byte.x01] ++ ascii_bytes "StreamTitle='Y';";
   ascii_bytes "next"].

Definition sample_short : list bytes :=
  [ascii_bytes "ab"; [Byte.x02] ++ ascii_bytes "StreamTitle='Y';"].

Definition sample_whole : list bytes := [ascii_bytes "ab" ++ [Byte.x00]].

Definition sample_split : list bytes :=
  [ascii_bytes "a"; ascii_bytes "b"; [Byte.x00]].

Definition sample_early : list bytes := [[]; ascii_bytes "a"; []].

Definition sample_padded_body : bytes :=
  ascii_bytes "StreamTitle='A" ++ [x00] ++ ascii_bytes "B';".

(** * Definitions for the further properties *)

(** From its [p]-th read on, the source answers with the chunks [cs];
    what it answers after them is left open, so that the source may
    never end. *)
Definition delivers (rd : Reader) (p : nat) (cs : list bytes) : Prop :=
  forall i c, nth_error cs i = Some c -> rd (p + i)%nat = Chunk c.

(** What a computation can return. *)
Definition returns {A} (m : M A) (ok : A -> Prop) : Prop :=
  forall w a, fst (m w) = Return a -> ok a.

(** Bytes below 0x80. *)
Definition ascii_only (a : bytes) : Prop :=
  Forall (fun b => (Byte.to_N b <= 0x7F)%N) a.

(** [concat] of src/utils/helpers.ts, statement by statement.
    [new Uint8Array(n)] is [n] zero bytes. [target.set(source, offset)]
    writes [source] over [target] from [offset] on, and raises a
    RangeError ([None]) when [source] does not fit. *)
Definition Uint8Array_new (n : nat) : bytes := repeat x00 n.

Definition Uint8Array_set (target source : bytes) (offset : nat) : option bytes :=
  if (offset + List.length source <=? List.length target)%nat
  then Some (firstn offset target ++ source
             ++ skipn (offset + List.length source) target)
  else None.

Definition concat_by_set (a b : bytes) : option bytes :=
  let out := Uint8Array_new (List.length a + List.length b) in
  match Uint8Array_set out a 0 with
  | None => None
  | Some out1 => Uint8Array_set out1 b (List.length a)
  end.

(** A source that never ends: one chunk with two bytes of audio and a
    whole block, then audio for ever. *)
Definition sample_endless : Reader :=
  fun k => match k with
           | O => Chunk (ascii_bytes "ab" ++ [Byte.x01]
                         ++ ascii_bytes "StreamTitle='Y';")
           | S _ => Chunk (ascii_bytes "audio")
           end.

(** The bytes of the field a server sends for the title [v], followed
    by [post]: the key, the title between quotes, and the rest. *)
Definition title_field (v post : bytes) : bytes :=
  ascii_bytes "StreamTitle='" ++ v ++ Byte.x27 :: post.

(** The empty record: no raw text and no title. *)
Definition empty_record : IcyMetadata := {| raw := []; title := None |}.

(** * Properties *)

(** ** Arrays and slices *)

Lemma length_of_nonneg (a : bytes) : 0 <= length_of a.
Proof. unfold length_of. lia. Qed.

Lemma length_of_app (a b : bytes) : length_of (a ++ b) = length_of a + length_of b.
Proof. unfold length_of. rewrite length_app. lia. Qed.

Lemma length_of_nonempty (a : bytes) : a <> [] -> 1 <= length_of a.
Proof. destruct a; [congruence | unfold length_of; simpl; lia]. Qed.

Lemma byte_value_range (b : byte) : 0 <= byte_value b <= 255.
Proof.
  unfold byte_value. pose proof (Byte.to_N_bounded b) as H. lia.
Qed.

(** [a.slice(k)] for a non-negative [k] drops the first [k] elements. *)
Lemma slice_from (a : bytes) (k : Z) :
  0 <= k -> slice a (Int k) None = skipn (Z.to_nat k) a.
Proof.
  intros Hk. unfold slice, relative_index, ToInteger.
  destruct (k <? 0) eqn:E; [apply Z.ltb_lt in E; lia |].
  destruct (Z.le_gt_cases k (length_of a)) as [Hle | Hgt].
  - rewrite Z.min_l by lia.
    apply firstn_all2. rewrite length_skipn. unfold length_of in *. lia.
  - rewrite Z.min_r by lia. rewrite Z.sub_diag. simpl.
    symmetry. apply skipn_all2. unfold length_of in *. lia.
Qed.

(** [a.slice(0, n)] for a non-negative [n] keeps the first [n] elements. *)
Lemma slice_upto (a : bytes) (n : Z) :
  0 <= n -> slice a (Int 0) (Some (Int n)) = firstn (Z.to_nat n) a.
Proof.
  intros Hn. unfold slice, relative_index, ToInteger.
  pose proof (length_of_nonneg a) as Hl.
  replace (0 <? 0) with false by reflexivity.
  rewrite (Z.min_l 0) by lia.
  destruct (n <? 0) eqn:E; [apply Z.ltb_lt in E; lia |].
  simpl skipn. rewrite Z.sub_0_r.
  destruct (Z.le_gt_cases n (length_of a)) as [Hle | Hgt].
  - now rewrite Z.min_l by lia.
  - rewrite Z.min_r by lia.
    rewrite !firstn_all2; unfold length_of in *; auto; lia.
Qed.

Lemma slice_upto_NaN (a : bytes) : slice a (Int 0) (Some NaN) = [].
Proof.
  unfold slice, relative_index, ToInteger.
  pose proof (length_of_nonneg a).
  replace (0 <? 0) with false by reflexivity.
  rewrite Z.min_l by lia. reflexivity.
Qed.

Lemma times16_declared (lb : option byte) : declared (times16 lb).
Proof.
  destruct lb as [b |]; simpl; auto.
  pose proof (byte_value_range b). lia.
Qed.

(** Bytes past a complete payload do not show in the slice. *)
Lemma slice_upto_app (m x : bytes) (len : number) :
  declared len ->
  js_lt (Int (length_of m)) len = false ->
  slice (m ++ x) (Int 0) (Some len) = slice m (Int 0) (Some len).
Proof.
  intros Hd Hlt. destruct len as [| n].
  - now rewrite !slice_upto_NaN.
  - simpl in Hd, Hlt. apply Z.ltb_ge in Hlt.
    rewrite !slice_upto by assumption.
    rewrite firstn_app.
    replace (Z.to_nat n - List.length m)%nat with 0%nat
      by (unfold length_of in Hlt; lia).
    simpl. now rewrite app_nil_r.
Qed.

(** ** One turn of each loop *)

Section Turns.

Variable rd : Reader.

Lemma discardAudio_exit fuel metaint r lo w :
  js_lt (Int r) metaint = false ->
  discardAudio fuel rd metaint r lo w = (Return (r, lo), w).
Proof. intros H. destruct fuel; cbn [discardAudio]; now rewrite H. Qed.

Lemma discardAudio_chunk fuel metaint r lo w v :
  js_lt (Int r) metaint = true ->
  rd (reads w) = Chunk v ->
  discardAudio (S fuel) rd metaint r lo w
  = discardAudio fuel rd metaint (r + length_of v) v (advance w).
Proof.
  intros H Hv. cbn [discardAudio]. rewrite H. unfold bind, read.
  now rewrite Hv.
Qed.

Lemma discardAudio_end fuel metaint r lo w :
  js_lt (Int r) metaint = true ->
  rd (reads w) = EndOfStream ->
  discardAudio (S fuel) rd metaint r lo w = (Throw StreamEndedEarly, advance w).
Proof.
  intros H Hv. cbn [discardAudio]. rewrite H. unfold bind, read.
  now rewrite Hv.
Qed.

Lemma accumulate_exit fuel len m w :
  js_lt (Int (length_of m)) len = false ->
  accumulate fuel rd len m w = (Return m, w).
Proof. intros H. destruct fuel; cbn [accumulate]; now rewrite H. Qed.

Lemma accumulate_chunk fuel len m w v :
  js_lt (Int (length_of m)) len = true ->
  rd (reads w) = Chunk v ->
  accumulate (S fuel) rd len m w
  = accumulate fuel rd len (helpers.concat m v) (advance w).
Proof.
  intros H Hv. cbn [accumulate]. rewrite H. unfold bind, read.
  now rewrite Hv.
Qed.

Lemma accumulate_end fuel len m w :
  js_lt (Int (length_of m)) len = true ->
  rd (reads w) = EndOfStream ->
  accumulate (S fuel) rd len m w = (Return m, advance w).
Proof.
  intros H Hv. cbn [accumulate]. rewrite H. unfold bind, read.
  now rewrite Hv.
Qed.

End Turns.

(** The [finally] block always completes, so the completion of the
    [try] block is the one of the call. *)
Lemma try_finally_outcome {A} (m : M A) (w : World) :
  fst (try_finally m (abort ;;; releaseLock) w) = fst (m w).
Proof.
  unfold try_finally. destruct (m w) as [[a | e |] w']; reflexivity.
Qed.

Lemma bind_return {A B} (m : M A) (k : A -> M B) w a w' :
  m w = (Return a, w') -> (x <- m ;; k x) w = k a w'.
Proof. intros H. unfold bind. now rewrite H. Qed.

Lemma bind_throw {A B} (m : M A) (k : A -> M B) w e w' :
  m w = (Throw e, w') -> (x <- m ;; k x) w = (Throw e, w').
Proof. intros H. unfold bind. now rewrite H. Qed.

Lemma try_finally_completed {A} (m : M A) w c w' :
  m w = (c, w') ->
  c <> Pending ->
  try_finally m (abort ;;; releaseLock) w = (c, cleaned w').
Proof.
  intros H Hc. unfold try_finally. rewrite H.
  destruct c; [reflexivity | reflexivity | congruence].
Qed.

(** ** Sources that deliver a list of chunks *)

Lemma feeds_nil rd p : feeds rd p [] -> rd p = EndOfStream.
Proof. intros [_ H]. simpl in H. now rewrite Nat.add_0_r in H. Qed.

Lemma feeds_cons rd p c cs :
  feeds rd p (c :: cs) -> rd p = Chunk c /\ feeds rd (S p) cs.
Proof.
  intros [Hd He]. split; [| split].
  - rewrite <- (Nat.add_0_r p). now apply Hd.
  - intros i x Hx. replace (S p + i)%nat with (p + S i)%nat by lia.
    now apply Hd.
  - simpl in He. now replace (S p + List.length cs)%nat
      with (p + S (List.length cs))%nat by lia.
Qed.

Lemma of_chunks_feeds cs : feeds (of_chunks cs) 0 cs.
Proof.
  split.
  - intros i c H. unfold of_chunks. simpl. now rewrite H.
  - unfold of_chunks. simpl.
    now replace (nth_error cs (List.length cs)) with (@None bytes)
      by (symmetry; apply nth_error_None; lia).
Qed.

(** The payload loop on such a source: it returns, and what it returns
    agrees, up to the declared length, with all the bytes that were left. *)
Lemma accumulate_feeds rd len :
  declared len ->
  forall cs fuel m w,
    feeds rd (reads w) cs ->
    (List.length cs < fuel)%nat ->
    exists m' w',
      accumulate fuel rd len m w = (Return m', w')
      /\ slice m' (Int 0) (Some len)
         = slice (m ++ List.concat cs) (Int 0) (Some len).
Proof.
  intros Hd cs. induction cs as [| c cs IH]; intros fuel m w Hf Hlt.
  - destruct (js_lt (Int (length_of m)) len) eqn:E.
    + destruct fuel as [| fuel]; [simpl in Hlt; lia |].
      exists m, (advance w). split.
      * apply accumulate_end; [assumption | now apply feeds_nil].
      * simpl. now rewrite app_nil_r.
    + exists m, w. split.
      * now apply accumulate_exit.
      * simpl. now rewrite app_nil_r.
  - destruct (js_lt (Int (length_of m)) len) eqn:E.
    + destruct fuel as [| fuel]; [simpl in Hlt; lia |].
      apply feeds_cons in Hf. destruct Hf as [Hc Hf].
      rewrite (accumulate_chunk rd fuel len m w c E Hc).
      destruct (IH fuel (helpers.concat m c) (advance w)) as (m' & w' & Hr & Hs).
      * exact Hf.
      * simpl in Hlt. lia.
      * exists m', w'. split; [exact Hr |].
        rewrite Hs. unfold helpers.concat. simpl. now rewrite app_assoc.
    + exists m, w. split.
      * now apply accumulate_exit.
      * symmetry. now apply slice_upto_app.
Qed.

(** The block read from a start [lb :: init] on such a source. *)
Lemma readBlock_feeds rd cs fuel lb init w :
  feeds rd (reads w) cs ->
  (List.length cs < fuel)%nat ->
  fst (readBlock fuel rd (lb :: init) w)
  = Return (recordOf (rawOf (init ++ List.concat cs) (times16 (Some lb)))).
Proof.
  intros Hf Hlt. unfold readBlock.
  replace (at0 (lb :: init)) with (Some lb) by reflexivity.
  rewrite slice_from by lia. simpl skipn.
  destruct (accumulate_feeds rd (times16 (Some lb)) (times16_declared _)
              cs fuel init w Hf Hlt) as (m' & w' & Hr & Hs).
  unfold bind. rewrite Hr. simpl. unfold rawOf. now rewrite Hs.
Qed.

Lemma blockAt_skip (d : Z) (c B : bytes) :
  length_of c < d -> blockAt d (c ++ B) = blockAt (d - length_of c) B.
Proof.
  intros H. unfold blockAt. rewrite length_of_app.
  replace (length_of c + length_of B <? d) with (length_of B <? d - length_of c)
    by (apply Bool.eq_true_iff_eq; rewrite !Z.ltb_lt; lia).
  rewrite skipn_app.
  rewrite (skipn_all2 c) by (unfold length_of in H; lia).
  replace (Z.to_nat d - List.length c)%nat with (Z.to_nat (d - length_of c))
    by (unfold length_of; lia).
  reflexivity.
Qed.

Lemma blockAt_here (d : Z) (c B : bytes) :
  0 <= d <= length_of c ->
  blockAt d (c ++ B)
  = match skipn (Z.to_nat d) c ++ B with
    | [] => Throw MetadataReadFailed
    | lb :: payload => Return (recordOf (rawOf payload (times16 (Some lb))))
    end.
Proof.
  intros H. unfold blockAt. rewrite length_of_app.
  pose proof (length_of_nonneg B).
  replace (length_of c + length_of B <? d) with false
    by (symmetry; apply Z.ltb_ge; lia).
  rewrite skipn_app.
  replace (Z.to_nat d - List.length c)%nat with 0%nat
    by (unfold length_of in H; lia).
  reflexivity.
Qed.

(** The audio loop and what follows it, on a source that delivers
    non-empty chunks: the result is the one read off the byte sequence. *)
Lemma extract_feeds rd N :
  forall cs, Forall (fun c => c <> []) cs ->
  forall f1 f2 r lo w,
    r < N ->
    feeds rd (reads w) cs ->
    (List.length cs < f1)%nat ->
    (List.length cs < f2)%nat ->
    fst ((p <- discardAudio f1 rd (Int N) r lo ;; locateBlock f2 rd (Int N) p) w)
    = blockAt (N - r) (List.concat cs).
Proof.
  induction 1 as [| c cs Hc Hcs IH]; intros f1 f2 r lo w Hr Hf H1 H2;
    (destruct f1 as [| f1]; [simpl in H1; lia |]);
    assert (Hlt : js_lt (Int r) (Int N) = true) by (apply Z.ltb_lt; lia).
  - unfold bind. rewrite (discardAudio_end rd f1 _ r lo w Hlt (feeds_nil _ _ Hf)).
    simpl. unfold blockAt.
    replace (length_of [] <? N - r) with true; [reflexivity |].
    symmetry. apply Z.ltb_lt. unfold length_of. simpl. lia.
  - apply feeds_cons in Hf. destruct Hf as [Hrd Hf].
    pose proof (length_of_nonempty c Hc) as Hlen.
    simpl in H1, H2. simpl List.concat.
    destruct (Z.lt_ge_cases (r + length_of c) N) as [Hbelow | Hreach].
    + (* still short of the boundary *)
      unfold bind. rewrite (discardAudio_chunk rd f1 _ r lo w c Hlt Hrd).
      rewrite blockAt_skip by lia.
      replace (N - r - length_of c) with (N - (r + length_of c)) by lia.
      apply (IH f1 f2 (r + length_of c) c (advance w)); auto; lia.
    + (* this chunk reaches the boundary *)
      unfold bind. rewrite (discardAudio_chunk rd f1 _ r lo w c Hlt Hrd).
      rewrite discardAudio_exit by (apply Z.ltb_ge; lia).
      rewrite blockAt_here by lia.
      unfold locateBlock, readMetaStart, js_gt. cbn [fst snd js_sub js_lt].
      destruct (0 <? r + length_of c - N) eqn:Over.
      * (* the tail of the chunk starts the block *)
        apply Z.ltb_lt in Over.
        rewrite slice_from by lia.
        replace (length_of c - (r + length_of c - N)) with (N - r) by lia.
        destruct (skipn (Z.to_nat (N - r)) c) as [| lb init] eqn:Tail.
        { apply (f_equal (@List.length byte)) in Tail.
          rewrite length_skipn in Tail. unfold length_of in *.
          simpl in Tail. lia. }
        unfold bind, ret.
        rewrite (readBlock_feeds rd cs f2 lb init (advance w) Hf) by lia.
        reflexivity.
      * (* the chunk ends on the boundary: one more read *)
        apply Z.ltb_ge in Over.
        rewrite (skipn_all2 c) by (unfold length_of in *; lia).
        simpl app. unfold bind, read. cbn [reads advance].
        destruct Hcs as [| c2 cs2 Hc2 Hcs2].
        { rewrite (feeds_nil _ _ Hf). reflexivity. }
        apply feeds_cons in Hf. destruct Hf as [Hrd2 Hf2].
        rewrite Hrd2. cbn [value].
        destruct c2 as [| lb init]; [congruence |].
        simpl in H2. unfold ret.
        rewrite (readBlock_feeds rd cs2 f2 lb init (advance (advance w)) Hf2)
          by lia.
        reflexivity.
Qed.

(** ** [parseOnce] on a body that delivers non-empty chunks *)

Lemma parseOnce_passes fuel res z :
  Number_header (icy_metaint res) = Int z ->
  z <> 0 ->
  parseOnce fuel res
  = try_finally (extract fuel (body res) (Int z)) (abort ;;; releaseLock).
Proof.
  intros Hn Hz. unfold parseOnce. rewrite Hn. simpl.
  destruct (z =? 0) eqn:E; [apply Z.eqb_eq in E; contradiction | reflexivity].
Qed.

Lemma parseOnce_feeds fuel rd N cs :
  0 < N ->
  Forall nonempty cs ->
  feeds rd 0 cs ->
  (List.length cs < fuel)%nat ->
  outcome (parseOnce fuel (mkResponse (Some (Int N)) rd))
  = blockAt N (List.concat cs).
Proof.
  intros HN Hcs Hf Hlt. unfold outcome.
  rewrite (parseOnce_passes fuel _ N) by (simpl; auto; lia).
  rewrite try_finally_outcome. unfold extract. simpl body.
  rewrite (extract_feeds rd N cs Hcs fuel fuel 0 [] fresh) by (auto; lia).
  now rewrite Z.sub_0_r.
Qed.

Lemma blockAt_completes d B : blockAt d B <> Pending.
Proof.
  unfold blockAt. destruct (length_of B <? d); [discriminate |].
  destruct (skipn (Z.to_nat d) B); discriminate.
Qed.

Lemma skipn_nth_error {A} (l : list A) (n : nat) (x : A) :
  nth_error l n = Some x -> skipn n l = x :: skipn (S n) l.
Proof.
  revert l. induction n as [| n IH]; intros [| y l] H; simpl in H; try discriminate.
  - now inversion H.
  - simpl. now apply IH.
Qed.

(** The block when the byte [lb] stands at offset [N]. *)
Lemma blockAt_length_byte N B lb :
  0 <= N ->
  nth_error B (Z.to_nat N) = Some lb ->
  blockAt N B
  = Return (recordOf (replace_trailing_nul (TextDecoder.decode
      (firstn (Z.to_nat (byte_value lb * 16)) (skipn (Z.to_nat (N + 1)) B))))).
Proof.
  intros HN Hnth. unfold blockAt.
  assert (Hlen : (Z.to_nat N < List.length B)%nat)
    by (apply nth_error_Some; congruence).
  replace (length_of B <? N) with false
    by (symmetry; apply Z.ltb_ge; unfold length_of; lia).
  rewrite (skipn_nth_error _ _ _ Hnth).
  replace (S (Z.to_nat N)) with (Z.to_nat (N + 1)) by lia.
  unfold rawOf, times16, js_mul.
  pose proof (byte_value_range lb).
  now rewrite slice_upto by lia.
Qed.

(** C1. For every interval [N > 0], two chunkings of one byte sequence
    into non-empty chunks give [parseOnce] the same completion: the same
    raw string and title, or the same error. Each run completes once its
    step budget exceeds the number of chunks. *)
Theorem chunk_boundaries_irrelevant (N : Z) (cs1 cs2 : list bytes) (f1 f2 : nat) :
  0 < N ->
  Forall nonempty cs1 ->
  Forall nonempty cs2 ->
  List.concat cs1 = List.concat cs2 ->
  (List.length cs1 < f1)%nat ->
  (List.length cs2 < f2)%nat ->
  outcome (parseOnce f1 (stream N cs1)) = outcome (parseOnce f2 (stream N cs2))
  /\ outcome (parseOnce f1 (stream N cs1)) <> Pending.
Proof.
  intros HN H1 H2 Heq Hf1 Hf2. unfold stream.
  rewrite (parseOnce_feeds f1 _ N cs1 HN H1 (of_chunks_feeds cs1) Hf1).
  rewrite (parseOnce_feeds f2 _ N cs2 HN H2 (of_chunks_feeds cs2) Hf2).
  rewrite Heq. split; [reflexivity | apply blockAt_completes].
Qed.

(** C2. When the body holds the length byte [lb] at offset [N] and at
    least [lb * 16] bytes after it, the raw string is decoded from
    exactly the [lb * 16] bytes that follow the length byte; a length
    byte of zero gives the empty raw string and no title. *)
Theorem declared_length_consumed (N : Z) (cs : list bytes) (fuel : nat) (lb : byte) :
  0 < N ->
  Forall nonempty cs ->
  (List.length cs < fuel)%nat ->
  nth_error (List.concat cs) (Z.to_nat N) = Some lb ->
  N + 1 + byte_value lb * 16 <= length_of (List.concat cs) ->
  length_of (firstn (Z.to_nat (byte_value lb * 16))
               (skipn (Z.to_nat (N + 1)) (List.concat cs)))
  = byte_value lb * 16
  /\ outcome (parseOnce fuel (stream N cs))
     = Return (recordOf (replace_trailing_nul (TextDecoder.decode
         (firstn (Z.to_nat (byte_value lb * 16))
            (skipn (Z.to_nat (N + 1)) (List.concat cs))))))
  /\ (byte_value lb = 0 ->
      outcome (parseOnce fuel (stream N cs))
      = Return {| raw := []; title := None |}).
Proof.
  intros HN Hcs Hf Hnth Hlen.
  pose proof (byte_value_range lb) as Hb.
  assert (Hrun : outcome (parseOnce fuel (stream N cs))
     = Return (recordOf (replace_trailing_nul (TextDecoder.decode
         (firstn (Z.to_nat (byte_value lb * 16))
            (skipn (Z.to_nat (N + 1)) (List.concat cs))))))).
  { unfold stream.
    rewrite (parseOnce_feeds fuel _ N cs HN Hcs (of_chunks_feeds cs) Hf).
    apply blockAt_length_byte; [lia | assumption]. }
  split; [| split].
  - unfold length_of in *. rewrite length_firstn, length_skipn. lia.
  - exact Hrun.
  - intros H0. rewrite Hrun, H0. reflexivity.
Qed.

Lemma declared_length_consumed_witness :
  length_of (firstn (Z.to_nat (byte_value Byte.x01 * 16))
               (skipn (Z.to_nat (2 + 1)) (List.concat sample_full)))
  = byte_value Byte.x01 * 16
  /\ outcome (parseOnce 4 (stream 2 sample_full))
     = Return (recordOf (replace_trailing_nul (TextDecoder.decode
         (firstn (Z.to_nat (byte_value Byte.x01 * 16))
            (skipn (Z.to_nat (2 + 1)) (List.concat sample_full))))))
  /\ (byte_value Byte.x01 = 0 ->
      outcome (parseOnce 4 (stream 2 sample_full))
      = Return {| raw := []; title := None |}).
Proof.
  apply (declared_length_consumed 2 sample_full 4 Byte.x01).
  - lia.
  - repeat constructor; discriminate.
  - simpl; lia.
  - reflexivity.
  - vm_compute; discriminate.
Defined.

(** The scenario of the specification: interval 10, a first chunk of
    twelve bytes whose last two are the length byte 1 and the first
    payload byte, then the rest of the payload, padded with a NUL to
    sixteen bytes. *)
Example scenario_interval_10 :
  parseOnce 3 (stream 10
    [ascii_bytes "0123456789" ++ [Byte.x01] ++ ascii_bytes "S";
     ascii_bytes "treamTitle='Y'" ++ [x00]]) fresh
  = (Return {| raw := js "StreamTitle='Y'"; title := Some (js "Y") |},
     mkWorld 2 1 1).
Proof. reflexivity. Qed.

(** A length byte of zero: no payload is read, whatever follows. *)
Example length_byte_zero :
  parseOnce 2 (stream 2 [ascii_bytes "ab" ++ [x00] ++ ascii_bytes "audio"]) fresh
  = (Return {| raw := []; title := None |}, mkWorld 1 1 1).
Proof. reflexivity. Qed.

(** C6. When the body ends after the length byte [lb] but before
    [lb * 16] payload bytes have come, [parseOnce] does not fail: it
    returns the raw string decoded from the bytes that did come. *)
Theorem short_payload_tolerated (N : Z) (cs : list bytes) (fuel : nat) (lb : byte) :
  0 < N ->
  Forall nonempty cs ->
  (List.length cs < fuel)%nat ->
  nth_error (List.concat cs) (Z.to_nat N) = Some lb ->
  length_of (List.concat cs) < N + 1 + byte_value lb * 16 ->
  outcome (parseOnce fuel (stream N cs))
  = Return (recordOf (replace_trailing_nul (TextDecoder.decode
      (skipn (Z.to_nat (N + 1)) (List.concat cs))))).
Proof.
  intros HN Hcs Hf Hnth Hlen. unfold stream.
  rewrite (parseOnce_feeds fuel _ N cs HN Hcs (of_chunks_feeds cs) Hf).
  rewrite (blockAt_length_byte N _ lb) by (auto; lia).
  rewrite firstn_all2; [reflexivity |].
  rewrite length_skipn. unfold length_of in Hlen. lia.
Qed.

Lemma short_payload_tolerated_witness :
  outcome (parseOnce 3 (stream 2 sample_short))
  = Return (recordOf (replace_trailing_nul (TextDecoder.decode
      (skipn (Z.to_nat (2 + 1)) (List.concat sample_short))))).
Proof.
  apply (short_payload_tolerated 2 sample_short 3 Byte.x02).
  - lia.
  - repeat constructor; discriminate.
  - simpl; lia.
  - reflexivity.
  - vm_compute; reflexivity.
Defined.

Lemma chunk_boundaries_irrelevant_witness :
  outcome (parseOnce 2 (stream 2 sample_whole))
  = outcome (parseOnce 4 (stream 2 sample_split))
  /\ outcome (parseOnce 2 (stream 2 sample_whole)) <> Pending.
Proof.
  apply (chunk_boundaries_irrelevant 2 sample_whole sample_split 2 4).
  - lia.
  - repeat constructor; discriminate.
  - repeat constructor; discriminate.
  - reflexivity.
  - simpl; lia.
  - simpl; lia.
Defined.

(** ** The end of the stream before the boundary *)

(** Chunks, empty ones too, that stay short of the boundary, and then
    the end of the stream. *)
Lemma discardAudio_short rd N :
  forall cs fuel r lo w,
    feeds rd (reads w) cs ->
    r + length_of (List.concat cs) < N ->
    (List.length cs < fuel)%nat ->
    discardAudio fuel rd (Int N) r lo w
    = (Throw StreamEndedEarly,
       mkWorld (S (reads w + List.length cs)) (aborts w) (releases w)).
Proof.
  induction cs as [| c cs IH]; intros fuel r lo w Hf Hsum Hlt;
    (destruct fuel as [| fuel]; [simpl in Hlt; lia |]).
  - simpl in Hsum. unfold length_of in Hsum. simpl in Hsum.
    rewrite discardAudio_end.
    + unfold advance. simpl. now rewrite Nat.add_0_r.
    + apply Z.ltb_lt. lia.
    + now apply feeds_nil.
  - simpl in Hsum. rewrite length_of_app in Hsum.
    pose proof (length_of_nonneg c). pose proof (length_of_nonneg (List.concat cs)).
    apply feeds_cons in Hf. destruct Hf as [Hc Hf].
    rewrite (discardAudio_chunk rd fuel (Int N) r lo w c)
      by (auto; apply Z.ltb_lt; lia).
    rewrite (IH fuel (r + length_of c) c (advance w)); auto.
    + unfold advance. simpl. f_equal. f_equal. lia.
    + lia.
    + simpl in Hlt. lia.
Qed.

(** C3 (amended). When the source delivers chunks whose total length is
    below the interval and then signals the end of the stream,
    [parseOnce] fails with [StreamEndedEarly]. An empty chunk is not taken
    for the end of the stream: it counts for zero bytes and the next read
    is made, so that the failure comes on the read after the last chunk. *)
Theorem end_of_stream_before_boundary (rd : Reader) (N : Z) (cs : list bytes)
    (fuel : nat) :
  feeds rd 0 cs ->
  length_of (List.concat cs) < N ->
  (List.length cs < fuel)%nat ->
  parseOnce fuel (mkResponse (Some (Int N)) rd) fresh
  = (Throw StreamEndedEarly, mkWorld (S (List.length cs)) 1 1).
Proof.
  intros Hf Hsum Hlt.
  pose proof (length_of_nonneg (List.concat cs)).
  rewrite (parseOnce_passes fuel _ N) by (simpl; auto; lia).
  simpl body.
  rewrite (try_finally_completed _ fresh (Throw StreamEndedEarly)
             (mkWorld (S (List.length cs)) 0 0)); [reflexivity | | discriminate].
  unfold extract. apply bind_throw.
  now rewrite (discardAudio_short rd N cs fuel 0 [] fresh Hf) by (auto; lia).
Qed.

Lemma end_of_stream_before_boundary_witness :
  parseOnce 4 (mkResponse (Some (Int 2)) (of_chunks sample_early)) fresh
  = (Throw StreamEndedEarly, mkWorld 4 1 1).
Proof.
  apply (end_of_stream_before_boundary (of_chunks sample_early) 2 sample_early 4).
  - apply of_chunks_feeds.
  - vm_compute; reflexivity.
  - simpl; lia.
Defined.

(** C3, as stated, fails: the first read yields an empty chunk while no
    byte has been counted and one is needed, and the call returns a
    record. *)
Lemma empty_chunk_not_end_of_stream :
  of_chunks [[]; ascii_bytes "a" ++ [x00]] 0%nat = Chunk []
  /\ outcome (parseOnce 3 (stream 1 [[]; ascii_bytes "a" ++ [x00]]))
     = Return {| raw := []; title := None |}
  /\ outcome (parseOnce 3 (stream 1 [[]; ascii_bytes "a" ++ [x00]]))
     <> Throw StreamEndedEarly.
Proof.
  split; [reflexivity | split; [reflexivity | discriminate]].
Qed.

(** ** The read at the boundary *)

(** The audio loop only reads. *)
Lemma discardAudio_frame rd metaint :
  forall fuel r lo w,
    aborts (snd (discardAudio fuel rd metaint r lo w)) = aborts w
    /\ releases (snd (discardAudio fuel rd metaint r lo w)) = releases w.
Proof.
  induction fuel as [| fuel IH]; intros r lo w; cbn [discardAudio];
    destruct (js_lt (Int r) metaint); try (split; reflexivity).
  unfold bind, read. destruct (rd (reads w)) as [v |]; cbn [done value].
  - destruct (IH (r + length_of v) v (advance w)) as [Ha Hr].
    now rewrite Ha, Hr.
  - split; reflexivity.
Qed.

Lemma readMetaStart_boundary rd leftover w :
  readMetaStart rd (Int 0) leftover w
  = match rd (reads w) with
    | Chunk v => (Return v, advance w)
    | EndOfStream => (Throw MetadataReadFailed, advance w)
    end.
Proof.
  unfold readMetaStart, bind, read. simpl.
  destruct (rd (reads w)); reflexivity.
Qed.

(** C4 (amended). When the audio loop ends with [received] equal to the
    interval, one more read is made for the start of the block. If it
    signals the end of the stream, [parseOnce] fails with
    [MetadataReadFailed], having made that one read more; if it yields a
    chunk, that chunk is the start of the block. *)
Theorem boundary_read (fuel : nat) (rd : Reader) (N : Z) (leftover : bytes)
    (w : World) :
  0 < N ->
  discardAudio fuel rd (Int N) 0 [] fresh = (Return (N, leftover), w) ->
  (rd (reads w) = EndOfStream ->
   parseOnce fuel (mkResponse (Some (Int N)) rd) fresh
   = (Throw MetadataReadFailed, mkWorld (S (reads w)) 1 1))
  /\ (forall v, rd (reads w) = Chunk v ->
      readMetaStart rd (js_sub (Int N) (Int N)) leftover w = (Return v, advance w)
      /\ outcome (parseOnce fuel (mkResponse (Some (Int N)) rd))
         = fst (readBlock fuel rd v (advance w))).
Proof.
  intros HN Hloop.
  destruct (discardAudio_frame rd (Int N) fuel 0 [] fresh) as [Ha Hr].
  rewrite Hloop in Ha, Hr. simpl in Ha, Hr.
  split.
  - intros Hend.
    rewrite (parseOnce_passes fuel _ N) by (simpl; auto; lia).
    simpl body.
    rewrite (try_finally_completed _ fresh (Throw MetadataReadFailed) (advance w)).
    + unfold cleaned, advance. simpl. now rewrite Ha, Hr.
    + unfold extract. rewrite (bind_return _ _ _ _ _ Hloop).
      unfold locateBlock. apply bind_throw. cbn [fst snd js_sub].
      rewrite Z.sub_diag, readMetaStart_boundary. now rewrite Hend.
    + discriminate.
  - intros v Hv. split.
    + cbn [js_sub]. rewrite Z.sub_diag, readMetaStart_boundary. now rewrite Hv.
    + unfold outcome.
      rewrite (parseOnce_passes fuel _ N) by (simpl; auto; lia).
      rewrite try_finally_outcome. simpl body.
      unfold extract. rewrite (bind_return _ _ _ _ _ Hloop).
      unfold locateBlock. cbn [fst snd].
      assert (Hm : readMetaStart rd (js_sub (Int N) (Int N)) leftover w
                   = (Return v, advance w)).
      { cbn [js_sub]. rewrite Z.sub_diag, readMetaStart_boundary.
        now rewrite Hv. }
      now rewrite (bind_return _ _ _ _ _ Hm).
Qed.

Lemma boundary_read_witness :
  parseOnce 2 (mkResponse (Some (Int 2)) (of_chunks [ascii_bytes "ab"])) fresh
  = (Throw MetadataReadFailed, mkWorld 2 1 1).
Proof.
  apply (proj1 (boundary_read 2 (of_chunks [ascii_bytes "ab"]) 2
                  (ascii_bytes "ab") (mkWorld 1 0 0) ltac:(lia) eq_refl)).
  reflexivity.
Defined.

(** C4, as stated, fails: the audio loop ends on the boundary, the one
    read more yields an empty chunk, and the call returns a record. *)
Lemma empty_chunk_at_boundary :
  discardAudio 3 (of_chunks [ascii_bytes "a"; []]) (Int 1) 0 [] fresh
  = (Return (1, ascii_bytes "a"), mkWorld 1 0 0)
  /\ of_chunks [ascii_bytes "a"; []] 1%nat = Chunk []
  /\ parseOnce 3 (stream 1 [ascii_bytes "a"; []]) fresh
     = (Return {| raw := []; title := None |}, mkWorld 2 1 1).
Proof.
  split; [reflexivity | split; reflexivity].
Qed.

(** ** Which errors the extraction can raise, and what it does to the
    connection *)

Lemma raises_bind {A B} (m : M A) (k : A -> M B) ok :
  raises m ok -> (forall a, raises (k a) ok) -> raises (x <- m ;; k x) ok.
Proof.
  intros Hm Hk w e. unfold bind.
  destruct (m w) as [[a | e' |] w'] eqn:E; simpl.
  - apply Hk.
  - intros H. inversion H; subst. apply (Hm w). now rewrite E.
  - discriminate.
Qed.

Lemma only_reads_bind {A B} (m : M A) (k : A -> M B) :
  only_reads m -> (forall a, only_reads (k a)) -> only_reads (x <- m ;; k x).
Proof.
  intros Hm Hk w. unfold bind. destruct (Hm w) as [Ha Hr].
  destruct (m w) as [[a | e' |] w'] eqn:E; simpl in *; auto.
  destruct (Hk a w') as [Ha' Hr']. split; congruence.
Qed.

Lemma only_reads_read rd : only_reads (read rd).
Proof. intros w. split; reflexivity. Qed.

Lemma discardAudio_raises rd metaint :
  forall fuel r lo,
    raises (discardAudio fuel rd metaint r lo) (fun e => e = StreamEndedEarly).
Proof.
  induction fuel as [| fuel IH]; intros r lo; cbn [discardAudio];
    destruct (js_lt (Int r) metaint); try (intros w e; discriminate).
  apply raises_bind; [intros w e; discriminate |].
  intros [v |]; cbn [done value].
  - apply IH.
  - intros w e H. now inversion H.
Qed.

Lemma accumulate_raises rd len :
  forall fuel m, raises (accumulate fuel rd len m) (fun _ => False).
Proof.
  induction fuel as [| fuel IH]; intros m; cbn [accumulate];
    destruct (js_lt (Int (length_of m)) len); try (intros w e; discriminate).
  apply raises_bind; [intros w e; discriminate |].
  intros [v |]; cbn [value]; [apply IH | intros w e; discriminate].
Qed.

Lemma accumulate_only_reads rd len :
  forall fuel m, only_reads (accumulate fuel rd len m).
Proof.
  induction fuel as [| fuel IH]; intros m; cbn [accumulate];
    destruct (js_lt (Int (length_of m)) len); try (intros w; split; reflexivity).
  apply only_reads_bind; [apply only_reads_read |].
  intros [v |]; cbn [value]; [apply IH | intros w; split; reflexivity].
Qed.

Lemma readMetaStart_raises rd overflow leftover :
  raises (readMetaStart rd overflow leftover) (fun e => e = MetadataReadFailed).
Proof.
  unfold readMetaStart. destruct (js_gt overflow (Int 0));
    [intros w e; discriminate |].
  apply raises_bind; [intros w e; discriminate |].
  intros [v |]; cbn [value]; intros w e H; [discriminate | now inversion H].
Qed.

Lemma readMetaStart_only_reads rd overflow leftover :
  only_reads (readMetaStart rd overflow leftover).
Proof.
  unfold readMetaStart. destruct (js_gt overflow (Int 0));
    [intros w; split; reflexivity |].
  apply only_reads_bind; [apply only_reads_read |].
  intros [v |]; cbn [value]; intros w; split; reflexivity.
Qed.

Lemma raises_weaken {A} (m : M A) (ok ok' : IcyError -> Prop) :
  raises m ok -> (forall e, ok e -> ok' e) -> raises m ok'.
Proof. intros H Hw w e He. apply Hw, (H w e He). Qed.

(** The [try] block raises one of two errors, never [UnsupportedStream]. *)
Lemma extract_raises fuel rd metaint :
  raises (extract fuel rd metaint)
         (fun e => e = StreamEndedEarly \/ e = MetadataReadFailed).
Proof.
  unfold extract. apply raises_bind.
  - eapply raises_weaken; [apply discardAudio_raises | intros; now left].
  - intros p. unfold locateBlock. apply raises_bind.
    + eapply raises_weaken; [apply readMetaStart_raises | intros; now right].
    + intros ms. unfold readBlock. apply raises_bind.
      * eapply raises_weaken; [apply accumulate_raises | intros e []].
      * intros m w e. discriminate.
Qed.

Lemma extract_only_reads fuel rd metaint : only_reads (extract fuel rd metaint).
Proof.
  unfold extract. apply only_reads_bind.
  - intros w. apply discardAudio_frame.
  - intros p. unfold locateBlock. apply only_reads_bind.
    + apply readMetaStart_only_reads.
    + intros ms. unfold readBlock. apply only_reads_bind.
      * apply accumulate_only_reads.
      * intros m w. split; reflexivity.
Qed.

(** ** The check of the interval *)

(** C5 (amended). [parseOnce] fails with [UnsupportedStream], before any
    read, exactly when the number read from the [icy-metaint] header is
    falsy: the header is absent, or its number is zero or [NaN]. On any
    other number, positive or negative, it enters the [try] block, and
    the call does not end in [UnsupportedStream]. *)
Theorem interval_gate (fuel : nat) (res : Response) :
  (icy_metaint res = None \/ icy_metaint res = Some NaN
     \/ icy_metaint res = Some (Int 0) ->
   parseOnce fuel res fresh = (Throw UnsupportedStream, fresh))
  /\ (forall z, z <> 0 -> icy_metaint res = Some (Int z) ->
      parseOnce fuel res
      = try_finally (extract fuel (body res) (Int z)) (abort ;;; releaseLock)
      /\ outcome (parseOnce fuel res) <> Throw UnsupportedStream).
Proof.
  split.
  - intros [H | [H | H]]; unfold parseOnce; rewrite H; reflexivity.
  - intros z Hz H.
    assert (Hp := parseOnce_passes fuel res z). rewrite H in Hp.
    specialize (Hp eq_refl Hz). split; [exact Hp |].
    unfold outcome. rewrite Hp, try_finally_outcome. intros Hthrow.
    destruct (extract_raises fuel (body res) (Int z) fresh _ Hthrow);
      discriminate.
Qed.

Lemma interval_gate_witness :
  parseOnce 1 (mkResponse None (of_chunks [])) fresh
  = (Throw UnsupportedStream, fresh)
  /\ outcome (parseOnce 3 (stream 2 sample_whole)) <> Throw UnsupportedStream.
Proof.
  split.
  - apply (proj1 (interval_gate 1 (mkResponse None (of_chunks [])))).
    left; reflexivity.
  - apply (proj2 (interval_gate 3 (stream 2 sample_whole)) 2);
      [lia | reflexivity].
Defined.

(** C5, as stated, fails: a negative interval is not rejected. The call
    enters the [try] block, reads nothing and returns an empty record. *)
Lemma negative_interval_passes :
  parseOnce 3 (stream (-5) sample_full) fresh
  = (Return {| raw := []; title := None |}, mkWorld 0 1 1)
  /\ outcome (parseOnce 3 (stream (-5) sample_full)) <> Throw UnsupportedStream.
Proof.
  split; [reflexivity | discriminate].
Qed.

(** ** Cleanup *)

(** C9. The check of the interval stands before the [try] block: when
    the header is absent the call ends in [UnsupportedStream] with the
    connection neither aborted nor released. *)
Theorem unsupported_stream_skips_cleanup (fuel : nat) (rd : Reader) :
  parseOnce fuel (mkResponse None rd) fresh
  = (Throw UnsupportedStream, mkWorld 0 0 0)
  /\ aborts (snd (parseOnce fuel (mkResponse None rd) fresh)) = 0%nat.
Proof.
  split; reflexivity.
Qed.

(** X1. Every call that enters the [try] block and completes, with a
    record or with an error, aborts the request once and releases the
    reader once. *)
Theorem cleanup_once_past_the_gate (fuel : nat) (res : Response) (w : World) :
  truthy (Number_header (icy_metaint res)) = true ->
  fst (parseOnce fuel res w) <> Pending ->
  aborts (snd (parseOnce fuel res w)) = S (aborts w)
  /\ releases (snd (parseOnce fuel res w)) = S (releases w).
Proof.
  intros Ht Hc.
  assert (Hp : parseOnce fuel res
               = try_finally
                   (extract fuel (body res) (Number_header (icy_metaint res)))
                   (abort ;;; releaseLock))
    by (unfold parseOnce; now rewrite Ht).
  rewrite Hp in *. clear Hp.
  destruct (extract_only_reads fuel (body res) (Number_header (icy_metaint res)) w)
    as [Ha Hr].
  destruct (extract fuel (body res) (Number_header (icy_metaint res)) w)
    as [c w'] eqn:E.
  simpl in Ha, Hr.
  assert (Hc' : c <> Pending).
  { intros ->. apply Hc. unfold try_finally. now rewrite E. }
  rewrite (try_finally_completed _ w c w' E Hc').
  unfold cleaned. simpl. now rewrite Ha, Hr.
Qed.

Lemma cleanup_once_past_the_gate_witness :
  aborts (snd (parseOnce 2 (stream 2 [ascii_bytes "ab"]) fresh)) = 1%nat
  /\ releases (snd (parseOnce 2 (stream 2 [ascii_bytes "ab"]) fresh)) = 1%nat.
Proof.
  apply (cleanup_once_past_the_gate 2 (stream 2 [ascii_bytes "ab"]) fresh).
  - reflexivity.
  - discriminate.
Defined.

(** ** Termination of the two loops *)

Lemma discardAudio_terminates rd N :
  (forall k v, rd k = Chunk v -> v <> []) ->
  forall fuel r lo w,
    (Z.to_nat (N - r) <= fuel)%nat ->
    fst (discardAudio fuel rd (Int N) r lo w) <> Pending.
Proof.
  intros Hne. induction fuel as [| fuel IH]; intros r lo w Hfuel;
    cbn [discardAudio]; destruct (js_lt (Int r) (Int N)) eqn:E;
    try discriminate; apply Z.ltb_lt in E.
  - lia.
  - unfold bind, read. destruct (rd (reads w)) as [v |] eqn:R; cbn [done value].
    + apply IH. pose proof (length_of_nonempty v (Hne _ _ R)). lia.
    + discriminate.
Qed.

Lemma accumulate_terminates rd n :
  (forall k v, rd k = Chunk v -> v <> []) ->
  forall fuel m w,
    (Z.to_nat (n - length_of m) <= fuel)%nat ->
    fst (accumulate fuel rd (Int n) m w) <> Pending.
Proof.
  intros Hne. induction fuel as [| fuel IH]; intros m w Hfuel;
    cbn [accumulate]; destruct (js_lt (Int (length_of m)) (Int n)) eqn:E;
    try discriminate; apply Z.ltb_lt in E.
  - lia.
  - unfold bind, read. destruct (rd (reads w)) as [v |] eqn:R; cbn [value].
    + apply IH. unfold helpers.concat. rewrite length_of_app.
      pose proof (length_of_nonempty v (Hne _ _ R)). lia.
    + discriminate.
Qed.





Lemma readBlock_completes rd fuel metaStart w :
  (forall k v, rd k = Chunk v -> v <> []) ->
  (4080 <= fuel)%nat ->
  fst (readBlock fuel rd metaStart w) <> Pending.
Proof.
  intros Hne Hfuel. unfold readBlock, bind.
  destruct (accumulate fuel rd (times16 (at0 metaStart))
              (slice metaStart (Int 1) None) w) as [[m | e |] w'] eqn:E;
    try discriminate.
  exfalso. revert E.
  destruct (at0 metaStart) as [lb |].
  - change (times16 (Some lb)) with (Int (byte_value lb * 16)). intros E.
    apply (accumulate_terminates rd (byte_value lb * 16) Hne fuel
             (slice metaStart (Int 1) None) w).
    + pose proof (byte_value_range lb).
      pose proof (length_of_nonneg (slice metaStart (Int 1) None)). lia.
    + now rewrite E.
  - rewrite accumulate_exit by reflexivity. discriminate.
Qed.

(** X2. On a body whose chunks are all non-empty, [parseOnce] completes,
    with a record or with an error, as soon as its step budget covers
    the interval and the longest payload, 255 * 16 bytes. *)
Theorem parseOnce_completes (fuel : nat) (res : Response) (w : World) :
  (forall k v, body res k = Chunk v -> v <> []) ->
  (Z.to_nat (ToInteger (Number_header (icy_metaint res))) <= fuel)%nat ->
  (4080 <= fuel)%nat ->
  fst (parseOnce fuel res w) <> Pending.
Proof.
  intros Hne Hint Hpay. unfold parseOnce.
  destruct (Number_header (icy_metaint res)) as [| N]; [discriminate |].
  simpl in Hint. destruct (truthy (Int N)); [| discriminate].
  change (negb true) with false. cbv iota.
  rewrite try_finally_outcome. unfold extract, bind.
  pose proof (discardAudio_terminates (body res) N Hne fuel 0 [] w) as Hloop.
  destruct (discardAudio fuel (body res) (Int N) 0 [] w) as [[p | e |] w1];
    [| discriminate | exfalso; apply Hloop; [lia | reflexivity]].
  unfold locateBlock, bind.
  destruct (readMetaStart (body res) (js_sub (Int (fst p)) (Int N)) (snd p) w1)
    as [[ms | e |] w2] eqn:E; [| discriminate |].
  - now apply readBlock_completes.
  - exfalso. revert E. unfold readMetaStart.
    destruct (js_gt (js_sub (Int (fst p)) (Int N)) (Int 0)); [discriminate |].
    unfold bind, read. destruct (body res (reads w1)); discriminate.
Qed.

Lemma parseOnce_completes_witness :
  fst (parseOnce 4080 (stream 2 sample_split) fresh) <> Pending.
Proof.
  apply (parseOnce_completes 4080 (stream 2 sample_split) fresh).
  - intros k v E. unfold stream, body, of_chunks in E.
    destruct (nth_error sample_split k) as [c |] eqn:Hn; [| discriminate].
    inversion E; subst. apply nth_error_In in Hn.
    destruct Hn as [<- | [<- | [<- | []]]]; discriminate.
  - simpl; lia.
  - lia.
Defined.

(** ** The title decoder *)

Module helpers_facts.

Import helpers.

Lemma starts_with_app (p s : list N) : starts_with p (p ++ s) = Some s.
Proof.
  induction p as [| x p IH]; simpl; [reflexivity |].
  now rewrite N.eqb_refl.
Qed.

Lemma starts_with_Some (p s r : list N) :
  starts_with p s = Some r -> s = p ++ r.
Proof.
  revert s. induction p as [| x p IH]; intros s H; simpl in H.
  - now inversion H.
  - destruct s as [| y s]; [discriminate |].
    destruct (x =? y)%N eqn:E; [| discriminate].
    apply N.eqb_eq in E. subst y. simpl. f_equal. now apply IH.
Qed.

Lemma until_quote_app (v post : list N) :
  ~ In quote v -> until_quote (v ++ quote :: post) = (v, quote :: post).
Proof.
  induction v as [| c v IH]; intros Hv.
  - cbn [app until_quote]. now rewrite N.eqb_refl.
  - cbn [app until_quote]. destruct (c =? quote)%N eqn:E.
    + apply N.eqb_eq in E. exfalso. apply Hv. now left.
    + rewrite IH; [reflexivity |]. intros Hin. apply Hv. now right.
Qed.

Lemma until_quote_spec (s v rest : list N) :
  until_quote s = (v, rest) -> s = v ++ rest /\ ~ In quote v.
Proof.
  revert v rest. induction s as [| c s IH]; intros v rest H;
    cbn [until_quote] in H.
  - inversion H. split; [reflexivity | intros []].
  - destruct (c =? quote)%N eqn:E.
    + inversion H. split; [reflexivity | intros []].
    + destruct (until_quote s) as [v' rest'] eqn:U. inversion H; subst.
      destruct (IH v' rest eq_refl) as [Hs Hv]. split.
      * simpl. now f_equal.
      * intros [Hc | Hin]; [| now apply Hv].
        apply N.eqb_neq in E. congruence.
Qed.

Lemma match_here_app (v post : list N) :
  ~ In quote v -> match_here (key ++ v ++ quote :: post) = Some v.
Proof.
  intros Hv. unfold match_here.
  rewrite starts_with_app, (until_quote_app v post Hv).
  now rewrite N.eqb_refl.
Qed.

Lemma match_here_Some (s v : list N) :
  match_here s = Some v ->
  exists post, s = key ++ v ++ quote :: post /\ ~ In quote v.
Proof.
  unfold match_here. intros H.
  destruct (starts_with key s) as [after |] eqn:K; [| discriminate].
  apply starts_with_Some in K.
  destruct (until_quote after) as [v' rest] eqn:U.
  apply until_quote_spec in U. destruct U as [Ha Hv].
  destruct rest as [| c rest]; [discriminate |].
  destruct (c =? quote)%N eqn:E; [| discriminate].
  apply N.eqb_eq in E. inversion H; subst.
  exists rest. split; [reflexivity | assumption].
Qed.

Lemma exec1_eq (s : list N) :
  exec1 s = match match_here s with
            | Some v => Some v
            | None => match s with
                      | [] => None
                      | _ :: s' => exec1 s'
                      end
            end.
Proof. destruct s; reflexivity. Qed.

(** A match found by the search is an occurrence of the pattern. *)
Lemma exec1_Some (s v : list N) :
  exec1 s = Some v ->
  exists pre post, s = pre ++ key ++ v ++ quote :: post /\ ~ In quote v.
Proof.
  induction s as [| c s IH]; intros H.
  - vm_compute in H. discriminate.
  - rewrite exec1_eq in H.
    destruct (match_here (c :: s)) as [v' |] eqn:M.
    + inversion H; subst. apply match_here_Some in M.
      destruct M as (post & Hs & Hv). exists [], post. now split.
    + destruct (IH H) as (pre & post & Hs & Hv).
      exists (c :: pre), post. split; [simpl; now f_equal | assumption].
Qed.

(** The search finds the leftmost occurrence of the key that a quote
    closes. *)
Lemma exec1_leftmost (pre v post : list N) :
  (forall p q, pre ++ key ++ v ++ quote :: post = p ++ key ++ q ->
               (List.length pre <= List.length p)%nat) ->
  ~ In quote v ->
  exec1 (pre ++ key ++ v ++ quote :: post) = Some v.
Proof.
  induction pre as [| c pre IH]; intros Hleft Hv.
  - cbn [app]. rewrite exec1_eq. now rewrite (match_here_app v post Hv).
  - cbn [app]. rewrite exec1_eq.
    destruct (match_here (c :: pre ++ key ++ v ++ quote :: post)) as [v' |] eqn:M.
    + apply match_here_Some in M. destruct M as (post' & Hs & _).
      specialize (Hleft [] (v' ++ quote :: post') Hs). simpl in Hleft. lia.
    + apply IH; [| assumption].
      intros p q Hpq.
      assert (Hc : (c :: pre) ++ key ++ v ++ quote :: post = (c :: p) ++ key ++ q)
        by (cbn [app]; now f_equal).
      specialize (Hleft (c :: p) q Hc). simpl in Hleft. lia.
Qed.

End helpers_facts.

(** C8. [parseMetadata] is a function from strings to records, with no
    error among its results. The title is the text between the quote
    that follows the leftmost [StreamTitle=] and the first quote after
    it; without such a pair of quotes the title is undefined. The three
    examples of the specification hold, and other keys standing around
    the title do no harm. *)
Theorem parseMetadata_title :
  (forall pre v post : list N,
     (forall p q, pre ++ helpers.key ++ v ++ helpers.quote :: post
                  = p ++ helpers.key ++ q ->
                  (List.length pre <= List.length p)%nat) ->
     ~ In helpers.quote v ->
     helpers.title (helpers.parseMetadata
       (pre ++ helpers.key ++ v ++ helpers.quote :: post)) = Some v)
  /\ (forall raw : list N,
        (forall p v q, raw <> p ++ helpers.key ++ v ++ helpers.quote :: q) ->
        helpers.title (helpers.parseMetadata raw) = None)
  /\ helpers.title (helpers.parseMetadata (js "StreamTitle='Artist - Song';"))
     = Some (js "Artist - Song")
  /\ helpers.title (helpers.parseMetadata []) = None
  /\ helpers.title (helpers.parseMetadata (js "StreamTitle='';")) = Some []
  /\ helpers.title (helpers.parseMetadata
       (js "StreamUrl='http://x';StreamTitle='It's';Other='B';"))
     = Some (js "It").
Proof.
  split; [| split; [| repeat split]].
  - intros pre v post Hleft Hv. simpl.
    now apply helpers_facts.exec1_leftmost.
  - intros raw Hno. simpl.
    destruct (helpers.exec1 raw) as [v |] eqn:E; [| reflexivity].
    apply helpers_facts.exec1_Some in E. destruct E as (p & q & Hs & _).
    exfalso. exact (Hno p v q Hs).
Qed.

Lemma parseMetadata_title_witness :
  helpers.title (helpers.parseMetadata
    (js "a;" ++ helpers.key ++ js "Y" ++ helpers.quote :: js ";"))
  = Some (js "Y").
Proof.
  apply (proj1 parseMetadata_title (js "a;") (js "Y") (js ";")).
  - intros p q H.
    destruct p as [| x [| y p]]; [discriminate | discriminate | simpl; lia].
  - intros [H | []]. discriminate.
Defined.

(** ** The decoder and the NUL code unit *)

Module TextDecoder_facts.

Import TextDecoder.
Open Scope N_scope.

Lemma wf_init : wf init.
Proof. now left. Qed.

(** The low bits of a byte that lies in an aligned range. *)
Lemma low_bits (b n q : N) :
  2 ^ n * q <= b < 2 ^ n * q + 2 ^ n ->
  N.land b (N.ones n) = b - 2 ^ n * q.
Proof.
  intros H. rewrite N.land_ones. symmetry.
  apply (N.mod_unique b (2 ^ n) q); lia.
Qed.

Lemma between_true lo b hi : between lo b hi = true -> lo <= b <= hi.
Proof.
  unfold between. intros H. apply andb_true_iff in H.
  destruct H as [H1 H2]. apply N.leb_le in H1, H2. lia.
Qed.

(** A first byte outside ASCII: nothing is produced and a sequence is
    open, or U+FFFD is produced. *)
Lemma lead_high (b : N) :
  0x7F < b ->
  exists st out,
    lead b = (st, out) /\ wf st /\ Forall nz out /\ out ++ flush st <> [].
Proof.
  intros Hb. unfold lead.
  destruct (b <=? 0x7F) eqn:A; [apply N.leb_le in A; lia |].
  destruct (between 0xC2 b 0xDF) eqn:E2; [apply between_true in E2 |].
  { eexists _, _. split; [reflexivity |].
    assert (L : N.land b 0x1F = b - 192)
      by (apply (low_bits b 5 6); simpl; lia).
    rewrite L. split; [| split; [constructor | discriminate]].
    right. simpl. repeat split; lia. }
  destruct (between 0xE0 b 0xEF) eqn:E3; [apply between_true in E3 |].
  { eexists _, _. split; [reflexivity |].
    assert (L : N.land b 0xF = b - 224)
      by (apply (low_bits b 4 14); simpl; lia).
    rewrite L. split; [| split; [constructor | discriminate]].
    right. simpl.
    destruct (N.eqb_spec b 0xE0); destruct (N.eqb_spec b 0xED);
      repeat split; lia. }
  destruct (between 0xF0 b 0xF4) eqn:E4; [apply between_true in E4 |].
  { eexists _, _. split; [reflexivity |].
    assert (L : N.land b 0x7 = b - 240)
      by (apply (low_bits b 3 30); simpl; lia).
    rewrite L. split; [| split; [constructor | discriminate]].
    right. simpl.
    destruct (N.eqb_spec b 0xF0); destruct (N.eqb_spec b 0xF4);
      repeat split; lia. }
  eexists _, _. split; [reflexivity |].
  split; [now left | split; [| discriminate]].
  constructor; [discriminate | constructor].
Qed.

Lemma lead_ascii (b : N) : b <= 0x7F -> lead b = (init, [b]).
Proof.
  intros Hb. unfold lead.
  now replace (b <=? 0x7F) with true by (symmetry; now apply N.leb_le).
Qed.

(** An ASCII byte closes whatever was open and stands for itself. *)
Lemma step_ascii (st : state) (b : N) :
  wf st -> b <= 0x7F -> step st b = (init, flush st ++ [b]).
Proof.
  intros Hwf Hb. unfold step, flush.
  destruct (bytes_needed st) as [| n] eqn:Hn.
  - now apply lead_ascii.
  - destruct Hwf as [H0 | (Hlo & _ & _)]; [congruence |].
    replace (between (lower st) b (upper st)) with false.
    + now rewrite lead_ascii.
    + symmetry. unfold between.
      replace (lower st <=? b) with false; [reflexivity |].
      symmetry. apply N.leb_gt. lia.
Qed.

Lemma step_high (st : state) (b : N) :
  wf st -> 0x7F < b ->
  exists st' out,
    step st b = (st', out) /\ wf st' /\ Forall nz out /\ out ++ flush st' <> [].
Proof.
  intros Hwf Hb. unfold step.
  destruct (bytes_needed st) as [| n] eqn:Hn.
  - now apply lead_high.
  - destruct Hwf as [H0 | (Hlo & Hhi & Hcp)]; [congruence |].
    destruct (between (lower st) b (upper st)) eqn:E.
    + apply between_true in E.
      assert (Hnz : N.lor (N.shiftl (code_point st) 6) (N.land b 0x3F) <> 0).
      { intros Z0. apply N.lor_eq_0_iff in Z0. destruct Z0 as [Z1 Z2].
        apply N.shiftl_eq_0_iff in Z1.
        destruct Hcp as [Hcp | Hcp]; [contradiction |].
        assert (L : N.land b 0x3F = b - 128)
          by (apply (low_bits b 6 2); simpl; lia).
        lia. }
      destruct n as [| n].
      * eexists _, _. split; [reflexivity |].
        split; [now left | split; [| discriminate]].
        constructor; [exact Hnz | constructor].
      * eexists _, _. split; [reflexivity |].
        split; [| split; [constructor | discriminate]].
        right. simpl. split; [lia | split; [lia | now left]].
    + destruct (lead_high b Hb) as (st' & out & Hl & Hw & Hf & Hne).
      rewrite Hl. exists st', (0xFFFD :: out).
      split; [reflexivity | split; [assumption | split; [| discriminate]]].
      constructor; [discriminate | assumption].
Qed.

Lemma run_cons st b bs :
  run st (b :: bs) = snd (step st b) ++ run (fst (step st b)) bs.
Proof. simpl. now destruct (step st b). Qed.

Lemma step_wf st b : wf st -> wf (fst (step st b)).
Proof.
  intros Hwf. destruct (N.le_gt_cases b 0x7F) as [Hb | Hb].
  - rewrite step_ascii by assumption. apply wf_init.
  - destruct (step_high st b Hwf Hb) as (st' & out & Hs & Hw & _).
    now rewrite Hs.
Qed.

(** A NUL byte at the end comes out as one NUL code point at the end. *)
Lemma run_nul (bs : list N) :
  forall st, wf st -> run st (bs ++ [0]) = run st bs ++ [0].
Proof.
  induction bs as [| b bs IH]; intros st Hwf.
  - change ([] ++ [0]) with [0].
    rewrite run_cons, step_ascii by (auto; lia).
    simpl. now rewrite app_nil_r.
  - change ((b :: bs) ++ [0]) with (b :: (bs ++ [0])).
    rewrite !run_cons, <- app_assoc. f_equal.
    apply IH. now apply step_wf.
Qed.

Lemma run_nuls (k : nat) :
  forall bs st, wf st -> run st (bs ++ repeat 0 k) = run st bs ++ repeat 0 k.
Proof.
  induction k as [| k IH]; intros bs st Hwf.
  - simpl. now rewrite !app_nil_r.
  - simpl repeat.
    replace (bs ++ 0 :: repeat 0 k) with ((bs ++ [0]) ++ repeat 0 k)
      by (now rewrite <- app_assoc).
    rewrite IH, run_nul by assumption. now rewrite <- app_assoc.
Qed.

Lemma Forall_nz_unpadded (l : list N) : Forall nz l -> unpadded l.
Proof.
  intros H. destruct l as [| x l]; [now left |].
  destruct (@exists_last _ (x :: l)) as (pre & c & E); [discriminate |].
  right. exists pre, c. split; [assumption |].
  rewrite E in H. apply Forall_app in H. destruct H as [_ H].
  now inversion H.
Qed.

Lemma unpadded_app (a l : list N) :
  l <> [] -> unpadded l -> unpadded (a ++ l).
Proof.
  intros Hne [-> | (pre & c & -> & Hc)]; [congruence |].
  right. exists (a ++ pre), c. split; [now rewrite app_assoc | assumption].
Qed.

Lemma flush_nz st : Forall nz (flush st).
Proof.
  unfold flush. destruct (bytes_needed st); constructor;
    [discriminate | constructor].
Qed.

(** After a last byte other than NUL the code points do not end in NUL,
    and there is at least one. *)
Lemma run_last (b : N) (bs : list N) :
  b <> 0 ->
  forall st, wf st ->
    run st (bs ++ [b]) <> [] /\ unpadded (run st (bs ++ [b])).
Proof.
  intros Hb. induction bs as [| a bs IH]; intros st Hwf.
  - change ([] ++ [b]) with [b]. rewrite run_cons.
    destruct (N.le_gt_cases b 0x7F) as [Hlo | Hhi].
    + rewrite step_ascii by assumption. simpl. rewrite app_nil_r. split.
      * destruct (flush st); discriminate.
      * right. exists (flush st), b. now split.
    + destruct (step_high st b Hwf Hhi) as (st' & out & Hs & Hw & Hf & Hne).
      rewrite Hs. simpl. split; [assumption |].
      apply Forall_nz_unpadded, Forall_app. split; [assumption | apply flush_nz].
  - change ((a :: bs) ++ [b]) with (a :: (bs ++ [b])). rewrite run_cons.
    destruct (IH (fst (step st a)) (step_wf st a Hwf)) as [Hne Hu]. split.
    + intros E. apply app_eq_nil in E. now destruct E.
    + now apply unpadded_app.
Qed.

End TextDecoder_facts.

Module NulFacts.

Import TextDecoder TextDecoder_facts.
Open Scope N_scope.

Lemma nul_units_app (s t : list N) :
  nul_units (s ++ t) = (nul_units s + nul_units t)%nat.
Proof. unfold nul_units. now rewrite filter_app, length_app. Qed.

Lemma nul_units_nz (l : list N) : Forall nz l -> nul_units l = 0%nat.
Proof.
  induction 1 as [| x l Hx _ IH]; [reflexivity |].
  unfold nul_units in *. simpl. unfold is_nul at 1.
  now replace (x =? 0) with false by (symmetry; now apply N.eqb_neq).
Qed.

(** The decoder produces one NUL code point for each NUL byte, and no
    other. *)
Lemma run_count (bs : list N) :
  forall st, wf st -> nul_units (run st bs) = nul_units bs.
Proof.
  induction bs as [| b bs IH]; intros st Hwf.
  - simpl. apply nul_units_nz, flush_nz.
  - rewrite run_cons, nul_units_app, (IH _ (step_wf st b Hwf)).
    change (b :: bs) with ([b] ++ bs). rewrite (nul_units_app [b]). f_equal.
    destruct (N.le_gt_cases b 0x7F) as [Hlo | Hhi].
    + rewrite step_ascii by assumption. simpl snd.
      rewrite nul_units_app, (nul_units_nz _ (flush_nz st)). reflexivity.
    + destruct (step_high st b Hwf Hhi) as (st' & out & Hs & _ & Hf & _).
      rewrite Hs. simpl snd. rewrite (nul_units_nz _ Hf).
      symmetry. apply nul_units_nz. constructor; [unfold nz; lia | constructor].
Qed.

Lemma skip_bom_count (l : list N) : nul_units (skip_bom l) = nul_units l.
Proof.
  destruct l as [| c l]; [reflexivity |]. simpl.
  destruct (N.eqb_spec c 0xFEFF) as [-> | _]; reflexivity.
Qed.

Lemma utf16_count (l : list N) : nul_units (flat_map utf16 l) = nul_units l.
Proof.
  induction l as [| c l IH]; [reflexivity |].
  simpl flat_map. rewrite nul_units_app, IH.
  change (c :: l) with ([c] ++ l). rewrite (nul_units_app [c]). f_equal.
  unfold utf16. destruct (N.ltb_spec c 0x10000) as [Hlt | Hge]; [reflexivity |].
  rewrite !nul_units_nz; [reflexivity | |].
  - constructor; [unfold nz; lia | constructor].
  - constructor; [unfold nz; lia |].
    constructor; [unfold nz; lia | constructor].
Qed.

Lemma to_N_count (a : list byte) : nul_units (map Byte.to_N a) = nul_bytes a.
Proof.
  unfold nul_units, nul_bytes. induction a as [| b a IH]; [reflexivity |].
  simpl. destruct (is_nul (Byte.to_N b)); simpl; now rewrite IH.
Qed.

Lemma decode_count (a : list byte) : nul_units (decode a) = nul_bytes a.
Proof.
  unfold decode.
  now rewrite utf16_count, skip_bom_count, (run_count _ init wf_init), to_N_count.
Qed.

(** Trailing NUL bytes come out as trailing NUL code units. *)
Lemma decode_padding (a : list byte) (k : nat) :
  decode (a ++ repeat x00 k) = decode a ++ repeat 0 k.
Proof.
  unfold decode. rewrite map_app, map_repeat.
  change (Byte.to_N x00) with 0.
  rewrite (run_nuls k _ init wf_init).
  assert (Hs : forall l, skip_bom (l ++ repeat 0 k) = skip_bom l ++ repeat 0 k).
  { intros [| c l]; simpl; [| now destruct (c =? 0xFEFF)].
    destruct k; reflexivity. }
  rewrite Hs, flat_map_app. f_equal. clear Hs.
  induction k as [| k IH]; [reflexivity |]. simpl. now rewrite IH.
Qed.

Lemma utf16_unpadded (c : N) :
  c <> 0 -> utf16 c <> [] /\ unpadded (utf16 c).
Proof.
  intros Hc. unfold utf16. destruct (c <? 0x10000).
  - split; [discriminate |]. right. exists [], c. now split.
  - split; [discriminate |]. right.
    exists [0xD800 + N.shiftr (c - 0x10000) 10],
           (0xDC00 + N.land (c - 0x10000) 0x3FF).
    split; [reflexivity | lia].
Qed.

Lemma flat_map_unpadded (l : list N) :
  unpadded l -> unpadded (flat_map utf16 l).
Proof.
  intros [-> | (pre & c & -> & Hc)]; [now left |].
  rewrite flat_map_app. simpl. rewrite app_nil_r.
  destruct (utf16_unpadded c Hc) as [Hne Hu]. now apply unpadded_app.
Qed.

Lemma skip_bom_unpadded (l : list N) : unpadded l -> unpadded (skip_bom l).
Proof.
  intros H. destruct l as [| x l]; [now left |]. simpl.
  destruct (x =? 0xFEFF); [| assumption].
  destruct H as [H | (pre & c & E & Hc)]; [discriminate |].
  destruct pre as [| y pre]; simpl in E; inversion E; subst.
  - now left.
  - right. exists pre, c. now split.
Qed.

(** The decoding of an array that does not end in a NUL byte does not
    end in a NUL code unit. *)
Lemma decode_unpadded (a : list byte) :
  (forall init, a <> init ++ [x00]) -> unpadded (decode a).
Proof.
  intros Ha. unfold decode. apply flat_map_unpadded, skip_bom_unpadded.
  destruct a as [| b0 a0] using rev_ind; [now left |].
  clear IHa0. rewrite map_app. simpl map.
  apply run_last; [| apply wf_init].
  intros H0. apply (Ha a0). f_equal. f_equal.
  assert (E : Byte.of_N (Byte.to_N b0) = Byte.of_N (Byte.to_N x00))
    by (now rewrite H0).
  rewrite !Byte.of_to_N in E. now inversion E.
Qed.

Lemma all_nul_repeat (k : nat) : forallb is_nul (repeat 0 k) = true.
Proof. induction k; simpl; auto. Qed.

(** The replacement removes a padding of NULs and nothing of a string
    that does not end in NUL. *)
Lemma replace_trailing_nul_padding (s : list N) (k : nat) :
  unpadded s -> replace_trailing_nul (s ++ repeat 0 k) = s.
Proof.
  intros [-> | (pre & c & -> & Hc)].
  - simpl. destruct k; [reflexivity |]. simpl. now rewrite all_nul_repeat.
  - rewrite <- app_assoc.
    assert (Hc' : is_nul c = false) by (now apply N.eqb_neq).
    induction pre as [| a pre IH].
    + simpl. rewrite Hc'. simpl. f_equal.
      destruct k; [reflexivity |]. simpl. now rewrite all_nul_repeat.
    + simpl. rewrite forallb_app. simpl forallb at 2. rewrite Hc'.
      simpl andb. rewrite !andb_false_r. f_equal. exact IH.
Qed.

(** Every array is a body that does not end in a NUL byte, followed by
    NUL bytes. *)
Lemma payload_split (p : list byte) :
  exists body k,
    p = body ++ repeat x00 k /\ (forall init, body <> init ++ [x00]).
Proof.
  induction p as [| b p IH] using rev_ind.
  - exists [], 0%nat. split; [reflexivity |].
    intros init H. symmetry in H. apply app_eq_nil in H.
    destruct H as [_ H]. discriminate.
  - destruct (Byte.byte_eq_dec b x00) as [-> | Hb].
    + destruct IH as (body & k & -> & Hbody).
      exists body, (S k). split; [| assumption].
      rewrite <- app_assoc. f_equal.
      change [x00] with (repeat x00 1). rewrite <- repeat_app.
      f_equal. lia.
    + exists (p ++ [b]), 0%nat. split; [now rewrite app_nil_r |].
      intros init H. apply app_inj_tail in H. destruct H as [_ H].
      contradiction.
Qed.

End NulFacts.

(** C7. The raw string of a payload that is [body] followed by [k] NUL
    bytes, [body] not ending in a NUL byte, is the decoding of [body]:
    the trailing run of NULs goes, whatever its length, and nothing else
    does. The NUL bytes inside [body] stay: the raw string holds as many
    NUL code units as [body] holds NUL bytes. *)
Theorem trailing_nul_stripped (body : list byte) (k : nat) :
  (forall init, body <> init ++ [x00]) ->
  replace_trailing_nul (TextDecoder.decode (body ++ repeat x00 k))
  = TextDecoder.decode body
  /\ nul_units (replace_trailing_nul (TextDecoder.decode (body ++ repeat x00 k)))
     = nul_bytes body.
Proof.
  intros Hbody.
  assert (H : replace_trailing_nul (TextDecoder.decode (body ++ repeat x00 k))
              = TextDecoder.decode body).
  { rewrite NulFacts.decode_padding.
    apply NulFacts.replace_trailing_nul_padding.
    now apply NulFacts.decode_unpadded. }
  split; [exact H |]. rewrite H. apply NulFacts.decode_count.
Qed.

Lemma trailing_nul_stripped_witness :
  replace_trailing_nul (TextDecoder.decode (sample_padded_body ++ repeat x00 3))
  = TextDecoder.decode sample_padded_body
  /\ nul_units (replace_trailing_nul
       (TextDecoder.decode (sample_padded_body ++ repeat x00 3)))
     = nul_bytes sample_padded_body.
Proof.
  apply (trailing_nul_stripped sample_padded_body 3).
  intros init H.
  apply (f_equal (fun l => last l Byte.x01)) in H.
  rewrite last_last in H. vm_compute in H. discriminate.
Defined.

(** * Further properties of the code *)

(** ** [concat] *)

(** A write over a stretch of the same length replaces that stretch. *)
Lemma Uint8Array_set_stretch (pre old post src : list byte) :
  List.length old = List.length src ->
  Uint8Array_set (pre ++ old ++ post) src (List.length pre)
  = Some (pre ++ src ++ post).
Proof.
  intros Hlen. unfold Uint8Array_set.
  replace (List.length pre + List.length src
           <=? List.length (pre ++ old ++ post))%nat with true
    by (symmetry; apply Nat.leb_le; rewrite !length_app; lia).
  f_equal. rewrite firstn_app, Nat.sub_diag, firstn_all. simpl firstn.
  rewrite app_nil_r. f_equal. f_equal.
  rewrite skipn_app, (skipn_all2 pre) by lia. simpl app.
  replace (List.length pre + List.length src - List.length pre)%nat
    with (List.length old) by lia.
  rewrite skipn_app, skipn_all, Nat.sub_diag. reflexivity.
Qed.

(** X3. [concat], as written with a fresh array and two calls of [set],
    never runs out of range, and returns the bytes of [a] followed by
    the bytes of [b]: the array that [parseOnce] accumulates. *)
Theorem concat_by_set_appends (a b : list byte) :
  concat_by_set a b = Some (helpers.concat a b)
  /\ List.length (helpers.concat a b) = (List.length a + List.length b)%nat.
Proof.
  split; [| unfold helpers.concat; apply length_app].
  unfold concat_by_set, Uint8Array_new, helpers.concat.
  rewrite repeat_app.
  pose proof (Uint8Array_set_stretch [] (repeat x00 (List.length a))
                (repeat x00 (List.length b)) a (repeat_length _ _)) as H1.
  simpl in H1. cbv zeta. rewrite H1.
  pose proof (Uint8Array_set_stretch a (repeat x00 (List.length b)) [] b
                (repeat_length _ _)) as H2.
  rewrite !app_nil_r in H2. exact H2.
Qed.

(** ** Edge cases of the extraction *)

Lemma slice_nil (start : number) (end_ : option number) : slice [] start end_ = [].
Proof. unfold slice. rewrite skipn_nil. apply firstn_nil. Qed.

(** A block that starts with no byte at all: the length is [NaN], the
    payload loop does not run, and the record is empty. *)
Lemma readBlock_empty fuel rd w :
  readBlock fuel rd [] w = (Return empty_record, w).
Proof.
  unfold readBlock. change (times16 (at0 [])) with NaN.
  rewrite slice_nil.
  rewrite (bind_return _ _ w [] w) by (now apply accumulate_exit).
  unfold rawOf. rewrite slice_nil. reflexivity.
Qed.

(** X4. A negative interval passes the check of [parseOnce]; the call
    then reads nothing from the body, whatever the body is, and returns
    the empty record after aborting and releasing once. *)
Theorem negative_interval_reads_nothing (fuel : nat) (rd : Reader) (N : Z) :
  N < 0 ->
  parseOnce fuel (mkResponse (Some (Int N)) rd) fresh
  = (Return empty_record, mkWorld 0 1 1).
Proof.
  intros HN.
  rewrite (parseOnce_passes fuel _ N) by (simpl; auto; lia).
  simpl body.
  rewrite (try_finally_completed _ fresh (Return empty_record) fresh);
    [reflexivity | | discriminate].
  unfold extract.
  rewrite (bind_return _ _ fresh (0, []) fresh)
    by (apply discardAudio_exit; apply Z.ltb_ge; lia).
  unfold locateBlock, readMetaStart, js_gt. cbn [fst snd js_sub js_lt].
  replace (0 <? 0 - N) with true by (symmetry; apply Z.ltb_lt; lia).
  rewrite slice_nil.
  rewrite (bind_return _ _ fresh [] fresh) by reflexivity.
  apply readBlock_empty.
Qed.

Lemma negative_interval_reads_nothing_witness :
  parseOnce 0 (mkResponse (Some (Int (-1))) stalled) fresh
  = (Return empty_record, mkWorld 0 1 1).
Proof.
  apply (negative_interval_reads_nothing 0 stalled (-1)). lia.
Defined.

(** X5. When the audio loop ends on the boundary and the next read
    yields a chunk of length zero, [parseOnce] raises no error: it
    returns the empty record, and reads nothing after that chunk. *)
Theorem zero_length_chunk_at_boundary (fuel : nat) (rd : Reader) (N : Z)
    (leftover : list byte) (w : World) :
  0 < N ->
  discardAudio fuel rd (Int N) 0 [] fresh = (Return (N, leftover), w) ->
  rd (reads w) = Chunk [] ->
  parseOnce fuel (mkResponse (Some (Int N)) rd) fresh
  = (Return empty_record, mkWorld (S (reads w)) 1 1).
Proof.
  intros HN Hloop Hrd.
  destruct (discardAudio_frame rd (Int N) fuel 0 [] fresh) as [Ha Hr].
  rewrite Hloop in Ha, Hr. simpl in Ha, Hr.
  rewrite (parseOnce_passes fuel _ N) by (simpl; auto; lia).
  simpl body.
  rewrite (try_finally_completed _ fresh (Return empty_record) (advance w)).
  - unfold cleaned, advance. simpl. now rewrite Ha, Hr.
  - unfold extract. rewrite (bind_return _ _ _ _ _ Hloop).
    unfold locateBlock. cbn [fst snd js_sub]. rewrite Z.sub_diag.
    rewrite (bind_return _ _ w [] (advance w))
      by (rewrite readMetaStart_boundary; now rewrite Hrd).
    apply readBlock_empty.
  - discriminate.
Qed.

Lemma zero_length_chunk_at_boundary_witness :
  parseOnce 2 (mkResponse (Some (Int 2)) (of_chunks [ascii_bytes "ab"; []])) fresh
  = (Return empty_record, mkWorld 2 1 1).
Proof.
  apply (zero_length_chunk_at_boundary 2 (of_chunks [ascii_bytes "ab"; []]) 2
           (ascii_bytes "ab") (mkWorld 1 0 0)).
  - lia.
  - reflexivity.
  - reflexivity.
Defined.

(** X6. On a body that delivers non-empty chunks and then ends, the
    length of the body decides the completion of [parseOnce]: shorter
    than the interval, [StreamEndedEarly]; exactly the interval,
    [MetadataReadFailed]; longer, a record. *)
Theorem completion_by_body_length (N : Z) (cs : list (list byte)) (fuel : nat) :
  0 < N ->
  Forall nonempty cs ->
  (List.length cs < fuel)%nat ->
  (outcome (parseOnce fuel (stream N cs)) = Throw StreamEndedEarly
     <-> length_of (List.concat cs) < N)
  /\ (outcome (parseOnce fuel (stream N cs)) = Throw MetadataReadFailed
     <-> length_of (List.concat cs) = N)
  /\ ((exists r, outcome (parseOnce fuel (stream N cs)) = Return r)
     <-> N < length_of (List.concat cs)).
Proof.
  intros HN Hcs Hf. unfold stream.
  rewrite (parseOnce_feeds fuel _ N cs HN Hcs (of_chunks_feeds cs) Hf).
  unfold blockAt.
  destruct (Z.ltb_spec (length_of (List.concat cs)) N) as [Hlt | Hge].
  - repeat split; try (intros; lia); try discriminate.
    + intros [r Hr]. discriminate.
  - destruct (skipn (Z.to_nat N) (List.concat cs)) as [| lb payload] eqn:E;
      apply (f_equal (@List.length byte)) in E; rewrite length_skipn in E;
      unfold length_of in *; simpl in E.
    + repeat split; try (intros; lia); try discriminate.
      intros [r Hr]. discriminate.
    + repeat split; try (intros; lia); try discriminate.
      intros _. eexists. reflexivity.
Qed.

Lemma completion_by_body_length_witness :
  (outcome (parseOnce 4 (stream 2 sample_split)) = Throw StreamEndedEarly
     <-> length_of (List.concat sample_split) < 2)
  /\ (outcome (parseOnce 4 (stream 2 sample_split)) = Throw MetadataReadFailed
     <-> length_of (List.concat sample_split) = 2)
  /\ ((exists r, outcome (parseOnce 4 (stream 2 sample_split)) = Return r)
     <-> 2 < length_of (List.concat sample_split)).
Proof.
  apply (completion_by_body_length 2 sample_split 4).
  - lia.
  - repeat constructor; discriminate.
  - simpl; lia.
Defined.

(** ** What every returned record satisfies *)

Lemma returns_bind {A B} (m : M A) (k : A -> M B) ok :
  (forall a, returns (k a) ok) -> returns (x <- m ;; k x) ok.
Proof.
  intros Hk w b. unfold bind.
  destruct (m w) as [[a | e |] w']; simpl; try discriminate. apply Hk.
Qed.

(** A record comes from the end of [readBlock]: its raw string is the
    result of the replacement, and its title is read from that string. *)
Lemma extract_returns fuel rd metaint :
  returns (extract fuel rd metaint)
          (fun r => exists s, r = recordOf (replace_trailing_nul s)).
Proof.
  unfold extract. apply returns_bind. intros p.
  unfold locateBlock. apply returns_bind. intros ms.
  unfold readBlock. apply returns_bind. intros m w r H.
  inversion H. unfold rawOf. eexists. reflexivity.
Qed.

Lemma replace_trailing_nul_nil (s : list N) :
  replace_trailing_nul s = [] -> forallb is_nul s = true.
Proof.
  destruct s as [| c s]; [reflexivity |]. simpl.
  destruct (is_nul c && forallb is_nul s); [reflexivity | discriminate].
Qed.

(** The result of the replacement never ends in NUL. *)
Lemma replace_trailing_nul_unpadded (s : list N) :
  unpadded (replace_trailing_nul s).
Proof.
  induction s as [| c s IH]; [now left |]. simpl.
  destruct (is_nul c && forallb is_nul s) eqn:E; [now left |].
  destruct IH as [Hnil | (pre & x & Hs & Hx)].
  - rewrite Hnil. right. exists [], c. split; [reflexivity |].
    apply replace_trailing_nul_nil in Hnil. rewrite Hnil, andb_true_r in E.
    now apply N.eqb_neq.
  - rewrite Hs. right. exists (c :: pre), x. now split.
Qed.

(** X7. Whatever the source delivers, a record returned by [parseOnce]
    has a raw string that does not end in a NUL code unit, and its title
    is the one [parseMetadata] reads from that raw string: when defined,
    it holds no quote and stands in the raw string between
    [StreamTitle='] and a closing quote. *)
Theorem returned_record_invariants (fuel : nat) (res : Response) (w : World)
    (r : IcyMetadata) :
  fst (parseOnce fuel res w) = Return r ->
  unpadded (raw r)
  /\ title r = helpers.title (helpers.parseMetadata (raw r))
  /\ (forall v, title r = Some v ->
      ~ In helpers.quote v
      /\ exists pre post,
           raw r = pre ++ helpers.key ++ v ++ helpers.quote :: post).
Proof.
  intros H. unfold parseOnce in H.
  destruct (negb (truthy (Number_header (icy_metaint res))));
    [discriminate |].
  rewrite try_finally_outcome in H.
  apply extract_returns in H. destruct H as [s ->]. simpl raw. simpl title.
  split; [apply replace_trailing_nul_unpadded | split; [reflexivity |]].
  intros v Hv. apply helpers_facts.exec1_Some in Hv.
  destruct Hv as (pre & post & Hs & Hq). split; [assumption |].
  now exists pre, post.
Qed.

Lemma returned_record_invariants_witness :
  unpadded (js "StreamTitle='Y';")
  /\ Some (js "Y") = helpers.title (helpers.parseMetadata (js "StreamTitle='Y';"))
  /\ (forall v, Some (js "Y") = Some v ->
      ~ In helpers.quote v
      /\ exists pre post,
           js "StreamTitle='Y';" = pre ++ helpers.key ++ v ++ helpers.quote :: post).
Proof.
  apply (returned_record_invariants 4 (stream 2 sample_full) fresh
           {| raw := js "StreamTitle='Y';"; title := Some (js "Y") |}).
  reflexivity.
Defined.

(** ** Sources that do not end *)

Lemma delivers_cons rd p c cs :
  delivers rd p (c :: cs) -> rd p = Chunk c /\ delivers rd (S p) cs.
Proof.
  intros Hd. split.
  - rewrite <- (Nat.add_0_r p). now apply Hd.
  - intros i x Hx. replace (S p + i)%nat with (p + S i)%nat by lia.
    now apply Hd.
Qed.

(** The payload loop, once enough bytes are on their way: it returns
    after at most as many reads as there are chunks. *)
Lemma accumulate_delivers rd n :
  0 <= n ->
  forall cs fuel m w,
    delivers rd (reads w) cs ->
    n <= length_of m + length_of (List.concat cs) ->
    (List.length cs <= fuel)%nat ->
    exists m' w',
      accumulate fuel rd (Int n) m w = (Return m', w')
      /\ slice m' (Int 0) (Some (Int n))
         = slice (m ++ List.concat cs) (Int 0) (Some (Int n))
      /\ (reads w' <= reads w + List.length cs)%nat.
Proof.
  intros Hn cs. induction cs as [| c cs IH]; intros fuel m w Hd Hlen Hfuel;
    destruct (js_lt (Int (length_of m)) (Int n)) eqn:E.
  - simpl in E, Hlen. apply Z.ltb_lt in E.
    unfold length_of in Hlen at 2. simpl in Hlen. lia.
  - exists m, w. split; [now apply accumulate_exit |].
    split; [simpl; now rewrite app_nil_r | lia].
  - destruct fuel as [| fuel]; [simpl in Hfuel; lia |].
    apply delivers_cons in Hd. destruct Hd as [Hc Hd].
    rewrite (accumulate_chunk rd fuel (Int n) m w c E Hc).
    destruct (IH fuel (helpers.concat m c) (advance w)) as (m' & w' & Hr & Hs & Hk).
    + exact Hd.
    + unfold helpers.concat. rewrite length_of_app.
      simpl List.concat in Hlen. rewrite length_of_app in Hlen. lia.
    + simpl in Hfuel. lia.
    + exists m', w'. split; [exact Hr |]. split.
      * rewrite Hs. unfold helpers.concat. simpl. now rewrite app_assoc.
      * simpl in Hk |- *. lia.
  - exists m, w. split; [now apply accumulate_exit |]. split.
    + symmetry. now apply slice_upto_app.
    + lia.
Qed.

Lemma readBlock_delivers rd cs fuel lb init w :
  delivers rd (reads w) cs ->
  byte_value lb * 16 <= length_of init + length_of (List.concat cs) ->
  (List.length cs <= fuel)%nat ->
  exists w',
    readBlock fuel rd (lb :: init) w
    = (Return (recordOf (rawOf (init ++ List.concat cs) (times16 (Some lb)))), w')
    /\ (reads w' <= reads w + List.length cs)%nat.
Proof.
  intros Hd Hlen Hfuel. unfold readBlock.
  replace (at0 (lb :: init)) with (Some lb) by reflexivity.
  rewrite slice_from by lia. simpl skipn.
  pose proof (byte_value_range lb) as Hb.
  destruct (accumulate_delivers rd (byte_value lb * 16) ltac:(lia)
              cs fuel init w Hd Hlen Hfuel) as (m' & w' & Hr & Hs & Hk).
  exists w'. split; [| exact Hk].
  change (times16 (Some lb)) with (Int (byte_value lb * 16)).
  rewrite (bind_return _ _ _ _ _ Hr). unfold ret, rawOf. now rewrite Hs.
Qed.

Lemma nth_error_skip {A} (c B : list A) (n : nat) :
  (List.length c <= n)%nat ->
  nth_error (c ++ B) n = nth_error B (n - List.length c).
Proof. intros H. now apply nth_error_app2. Qed.

(** The audio loop and what follows, on a source that delivers non-empty
    chunks which hold the whole block: the record is the one read off
    the bytes, and no read goes past these chunks. *)
Lemma extract_delivers rd N lb :
  forall cs, Forall nonempty cs ->
  forall f1 f2 r lo w,
    r < N ->
    delivers rd (reads w) cs ->
    nth_error (List.concat cs) (Z.to_nat (N - r)) = Some lb ->
    N - r + 1 + byte_value lb * 16 <= length_of (List.concat cs) ->
    (List.length cs <= f1)%nat ->
    (List.length cs <= f2)%nat ->
    exists w',
      (p <- discardAudio f1 rd (Int N) r lo ;; locateBlock f2 rd (Int N) p) w
      = (blockAt (N - r) (List.concat cs), w')
      /\ (reads w' <= reads w + List.length cs)%nat.
Proof.
  induction 1 as [| c cs Hc Hcs IH]; intros f1 f2 r lo w Hr Hd Hnth Hlen H1 H2.
  - destruct (Z.to_nat (N - r)); discriminate.
  - assert (Hlt : js_lt (Int r) (Int N) = true) by (apply Z.ltb_lt; lia).
    destruct f1 as [| f1]; [simpl in H1; lia |].
    apply delivers_cons in Hd. destruct Hd as [Hrd Hd].
    pose proof (length_of_nonempty c Hc) as Hlc.
    pose proof (byte_value_range lb) as Hb.
    simpl in H1, H2. simpl List.concat in *.
    rewrite length_of_app in Hlen.
    unfold bind. rewrite (discardAudio_chunk rd f1 _ r lo w c Hlt Hrd).
    destruct (Z.lt_ge_cases (r + length_of c) N) as [Hbelow | Hreach].
    + (* still short of the boundary *)
      rewrite blockAt_skip by lia.
      replace (N - r - length_of c) with (N - (r + length_of c)) by lia.
      destruct (IH f1 f2 (r + length_of c) c (advance w)) as (w' & Hrun & Hk);
        auto; try lia.
      * rewrite nth_error_skip in Hnth by (unfold length_of in *; lia).
        rewrite <- Hnth. f_equal. unfold length_of. lia.
      * exists w'. split; [exact Hrun |]. simpl in Hk |- *. lia.
    + (* this chunk reaches the boundary *)
      rewrite discardAudio_exit by (apply Z.ltb_ge; lia).
      rewrite blockAt_here by lia.
      unfold locateBlock, readMetaStart, js_gt. cbn [fst snd js_sub js_lt].
      destruct (0 <? r + length_of c - N) eqn:Over.
      * apply Z.ltb_lt in Over.
        rewrite slice_from by lia.
        replace (length_of c - (r + length_of c - N)) with (N - r) by lia.
        destruct (skipn (Z.to_nat (N - r)) c) as [| lb' init] eqn:Tail.
        { apply (f_equal (@List.length byte)) in Tail.
          rewrite length_skipn in Tail. unfold length_of in *.
          simpl in Tail. lia. }
        assert (Hlb : lb' = lb).
        { rewrite nth_error_app1 in Hnth by (unfold length_of in *; lia).
          apply skipn_nth_error in Hnth. rewrite Tail in Hnth.
          now inversion Hnth. }
        subst lb'.
        assert (Hinit : length_of init = length_of c - (N - r) - 1).
        { apply (f_equal (@List.length byte)) in Tail.
          rewrite length_skipn in Tail. unfold length_of in *.
          simpl in Tail. lia. }
        destruct (readBlock_delivers rd cs f2 lb init (advance w) Hd)
          as (w' & Hrun & Hk); try lia.
        exists w'. split; [| simpl in Hk |- *; lia].
        unfold bind, ret. rewrite Hrun. reflexivity.
      * apply Z.ltb_ge in Over.
        assert (Hd0 : N - r = length_of c) by lia.
        rewrite (skipn_all2 c) by (unfold length_of in *; lia).
        simpl app. unfold bind, read. cbn [reads advance].
        rewrite nth_error_skip in Hnth by (unfold length_of in *; lia).
        replace (Z.to_nat (N - r) - List.length c)%nat with 0%nat in Hnth
          by (unfold length_of in *; lia).
        destruct Hcs as [| c2 cs2 Hc2 Hcs2]; [discriminate |].
        apply delivers_cons in Hd. destruct Hd as [Hrd2 Hd2].
        rewrite Hrd2. cbn [value].
        destruct c2 as [| lb' init]; [now elim Hc2 |].
        simpl in Hnth. inversion Hnth; subst lb'.
        simpl in H2. simpl List.concat in Hlen.
        change ((lb :: init) ++ List.concat cs2)
          with (lb :: (init ++ List.concat cs2)) in Hlen.
        assert (Hcons : length_of (lb :: init ++ List.concat cs2)
                        = 1 + (length_of init + length_of (List.concat cs2))).
        { rewrite <- length_of_app. unfold length_of.
          change (List.length (lb :: init ++ List.concat cs2))
            with (S (List.length (init ++ List.concat cs2))). lia. }
        destruct (readBlock_delivers rd cs2 f2 lb init (advance (advance w)) Hd2)
          as (w' & Hrun & Hk); try lia.
        exists w'. split; [| simpl in Hk |- *; lia].
        unfold ret. rewrite Hrun. reflexivity.
Qed.

(** [parseOnce] on such a source. *)
Lemma parseOnce_delivers fuel rd N cs lb :
  0 < N ->
  Forall nonempty cs ->
  delivers rd 0 cs ->
  nth_error (List.concat cs) (Z.to_nat N) = Some lb ->
  N + 1 + byte_value lb * 16 <= length_of (List.concat cs) ->
  (List.length cs <= fuel)%nat ->
  exists k,
    (k <= List.length cs)%nat
    /\ parseOnce fuel (mkResponse (Some (Int N)) rd) fresh
       = (Return (recordOf (replace_trailing_nul (TextDecoder.decode
            (firstn (Z.to_nat (byte_value lb * 16))
               (skipn (Z.to_nat (N + 1)) (List.concat cs)))))),
          mkWorld k 1 1).
Proof.
  intros HN Hcs Hd Hnth Hlen Hfuel.
  destruct (extract_delivers rd N lb cs Hcs fuel fuel 0 [] fresh)
    as (w' & Hrun & Hk); auto; try lia.
  { now rewrite Z.sub_0_r. }
  rewrite Z.sub_0_r in Hrun.
  rewrite (blockAt_length_byte N _ lb) in Hrun by (auto; lia).
  destruct (extract_only_reads fuel rd (Int N) fresh) as [Ha Hr].
  unfold extract in Ha, Hr. rewrite Hrun in Ha, Hr. simpl in Ha, Hr.
  exists (reads w'). split; [simpl in Hk; lia |].
  rewrite (parseOnce_passes fuel _ N) by (simpl; auto; lia).
  simpl body. unfold extract.
  rewrite (try_finally_completed _ fresh _ w' Hrun) by discriminate.
  unfold cleaned. now rewrite Ha, Hr.
Qed.

(** X8. When the first chunks of the body, all non-empty, hold the
    interval, the length byte [lb] and [lb * 16] payload bytes,
    [parseOnce] returns the record of that block whatever the source
    answers afterwards, a source that never ends included; it reads no
    further than these chunks, and aborts and releases once. *)
Theorem block_returned_from_endless_stream (fuel : nat) (rd : Reader) (N : Z)
    (cs : list (list byte)) (lb : byte) :
  0 < N ->
  Forall nonempty cs ->
  delivers rd 0 cs ->
  nth_error (List.concat cs) (Z.to_nat N) = Some lb ->
  N + 1 + byte_value lb * 16 <= length_of (List.concat cs) ->
  (List.length cs <= fuel)%nat ->
  exists k,
    (k <= List.length cs)%nat
    /\ parseOnce fuel (mkResponse (Some (Int N)) rd) fresh
       = (Return (recordOf (replace_trailing_nul (TextDecoder.decode
            (firstn (Z.to_nat (byte_value lb * 16))
               (skipn (Z.to_nat (N + 1)) (List.concat cs)))))),
          mkWorld k 1 1).
Proof. apply parseOnce_delivers. Qed.

Lemma block_returned_from_endless_stream_witness :
  exists k,
    (k <= 1)%nat
    /\ parseOnce 1 (mkResponse (Some (Int 2)) sample_endless) fresh
       = (Return (recordOf (replace_trailing_nul (TextDecoder.decode
            (firstn (Z.to_nat (byte_value Byte.x01 * 16))
               (skipn (Z.to_nat (2 + 1))
                  (List.concat [ascii_bytes "ab" ++ [Byte.x01]
                                ++ ascii_bytes "StreamTitle='Y';"])))))),
          mkWorld k 1 1).
Proof.
  apply (block_returned_from_endless_stream 1 sample_endless 2
           [ascii_bytes "ab" ++ [Byte.x01] ++ ascii_bytes "StreamTitle='Y';"]
           Byte.x01).
  - lia.
  - repeat constructor; discriminate.
  - intros [| i] c H; [now inversion H | destruct i; discriminate].
  - reflexivity.
  - vm_compute; discriminate.
  - simpl; lia.
Defined.

(** ** Blocks as a server sends them *)

Module AsciiFacts.

Import TextDecoder TextDecoder_facts.
Open Scope N_scope.

Lemma run_ascii (bs : list N) :
  Forall (fun b => b <= 0x7F) bs -> run init bs = bs.
Proof.
  induction 1 as [| b bs Hb _ IH]; [reflexivity |].
  rewrite run_cons, (step_ascii init b wf_init Hb). simpl. now rewrite IH.
Qed.

Lemma utf16_ascii (bs : list N) :
  Forall (fun b => b <= 0x7F) bs -> flat_map utf16 bs = bs.
Proof.
  induction 1 as [| b bs Hb _ IH]; [reflexivity |].
  simpl. rewrite IH. unfold utf16.
  now replace (b <? 0x10000) with true by (symmetry; apply N.ltb_lt; lia).
Qed.

Lemma decode_ascii (a : list byte) :
  ascii_only a -> decode a = map Byte.to_N a.
Proof.
  intros Ha. unfold decode.
  assert (H : Forall (fun b => b <= 0x7F) (map Byte.to_N a)).
  { unfold ascii_only in Ha. induction Ha; simpl; constructor; auto. }
  rewrite (run_ascii _ H).
  assert (Hs : skip_bom (map Byte.to_N a) = map Byte.to_N a).
  { destruct H as [| b bs Hb _]; [reflexivity |]. simpl.
    now replace (b =? 0xFEFF) with false by (symmetry; apply N.eqb_neq; lia). }
  rewrite Hs. now apply utf16_ascii.
Qed.

End AsciiFacts.

(** X9. ASCII bytes are decoded to the code units of the same values:
    no replacement character and no byte order mark come into play, so
    the raw string of an ASCII payload holds the payload's characters. *)
Theorem ascii_payload_decoded (a : list byte) (n : Z) :
  ascii_only a ->
  0 <= n ->
  TextDecoder.decode a = map Byte.to_N a
  /\ rawOf a (Int n)
     = replace_trailing_nul (map Byte.to_N (firstn (Z.to_nat n) a)).
Proof.
  intros Ha Hn. split; [now apply AsciiFacts.decode_ascii |].
  unfold rawOf. rewrite slice_upto by assumption.
  rewrite AsciiFacts.decode_ascii; [reflexivity |].
  unfold ascii_only in *. rewrite <- (firstn_skipn (Z.to_nat n) a) in Ha.
  apply Forall_app in Ha. now destruct Ha.
Qed.

Lemma ascii_payload_decoded_witness :
  TextDecoder.decode (ascii_bytes "StreamTitle='Y';")
  = map Byte.to_N (ascii_bytes "StreamTitle='Y';")
  /\ rawOf (ascii_bytes "StreamTitle='Y';") (Int 16)
     = replace_trailing_nul
         (map Byte.to_N (firstn (Z.to_nat 16) (ascii_bytes "StreamTitle='Y';"))).
Proof.
  apply (ascii_payload_decoded (ascii_bytes "StreamTitle='Y';") 16).
  - repeat constructor; vm_compute; discriminate.
  - lia.
Defined.

(** The block when the bytes are the audio, the length byte, a text,
    its padding and whatever follows. *)
Lemma padded_block_bytes (audio text rest : list byte) (lb : byte) (k : nat) :
  length_of text + Z.of_nat k = byte_value lb * 16 ->
  nth_error (audio ++ lb :: text ++ repeat x00 k ++ rest)
            (Z.to_nat (length_of audio)) = Some lb
  /\ length_of audio + 1 + byte_value lb * 16
     <= length_of (audio ++ lb :: text ++ repeat x00 k ++ rest)
  /\ firstn (Z.to_nat (byte_value lb * 16))
       (skipn (Z.to_nat (length_of audio + 1))
          (audio ++ lb :: text ++ repeat x00 k ++ rest))
     = text ++ repeat x00 k.
Proof.
  intros Hlen. unfold length_of in *. split; [| split].
  - rewrite nth_error_app2 by lia.
    replace (Z.to_nat (Z.of_nat (List.length audio)) - List.length audio)%nat
      with 0%nat by lia.
    reflexivity.
  - rewrite length_app. simpl List.length. rewrite !length_app, repeat_length.
    lia.
  - replace (Z.to_nat (Z.of_nat (List.length audio) + 1))
      with (List.length audio + 1)%nat by lia.
    rewrite skipn_app, skipn_all2 by lia. simpl app.
    replace (List.length audio + 1 - List.length audio)%nat with 1%nat by lia.
    simpl skipn. rewrite (app_assoc text).
    rewrite firstn_app.
    replace (Z.to_nat (byte_value lb * 16)
             - List.length (text ++ repeat x00 k))%nat with 0%nat
      by (rewrite length_app, repeat_length; lia).
    simpl firstn. rewrite app_nil_r. apply firstn_all2.
    rewrite length_app, repeat_length. lia.
Qed.

Lemma parseOnce_padded_block (fuel : nat) (rd : Reader) (N : Z)
    (cs : list (list byte)) (audio text rest : list byte) (lb : byte) (k : nat) :
  0 < N ->
  Forall nonempty cs ->
  delivers rd 0 cs ->
  (List.length cs <= fuel)%nat ->
  List.concat cs = audio ++ lb :: text ++ repeat x00 k ++ rest ->
  length_of audio = N ->
  length_of text + Z.of_nat k = byte_value lb * 16 ->
  (forall init, text <> init ++ [x00]) ->
  exists n,
    (n <= List.length cs)%nat
    /\ parseOnce fuel (mkResponse (Some (Int N)) rd) fresh
       = (Return (recordOf (TextDecoder.decode text)), mkWorld n 1 1).
Proof.
  intros HN Hcs Hd Hfuel Hbody Haudio Hlen Htext.
  destruct (padded_block_bytes audio text rest lb k Hlen) as (Hnth & Hsize & Hpay).
  rewrite Haudio in Hnth, Hsize, Hpay. rewrite <- Hbody in Hnth, Hsize, Hpay.
  destruct (parseOnce_delivers fuel rd N cs lb HN Hcs Hd Hnth Hsize Hfuel)
    as (n & Hn & Hrun).
  exists n. split; [exact Hn |].
  rewrite Hrun, Hpay, NulFacts.decode_padding.
  rewrite NulFacts.replace_trailing_nul_padding; [reflexivity |].
  now apply NulFacts.decode_unpadded.
Qed.

(** X10. A block as a server sends it is given back: when the bytes of
    the body are [N] bytes of audio, a length byte, a text that does not
    end in a NUL byte and is padded with NUL bytes to the declared
    length, and then anything, [parseOnce] returns the decoding of the
    text as the raw string, however the bytes are cut into non-empty
    chunks and whatever follows them. *)
Theorem padded_block_recovered (fuel : nat) (rd : Reader) (N : Z)
    (cs : list (list byte)) (audio text rest : list byte) (lb : byte) (k : nat) :
  0 < N ->
  Forall nonempty cs ->
  delivers rd 0 cs ->
  (List.length cs <= fuel)%nat ->
  List.concat cs = audio ++ lb :: text ++ repeat x00 k ++ rest ->
  length_of audio = N ->
  length_of text + Z.of_nat k = byte_value lb * 16 ->
  (forall init, text <> init ++ [x00]) ->
  exists n,
    (n <= List.length cs)%nat
    /\ parseOnce fuel (mkResponse (Some (Int N)) rd) fresh
       = (Return (recordOf (TextDecoder.decode text)), mkWorld n 1 1).
Proof. apply parseOnce_padded_block. Qed.

Lemma padded_block_recovered_witness :
  exists n,
    (n <= 2)%nat
    /\ parseOnce 2 (mkResponse (Some (Int 2))
         (of_chunks [ascii_bytes "ab" ++ [Byte.x01] ++ ascii_bytes "StreamT";
                     ascii_bytes "itle='Y'" ++ [x00] ++ ascii_bytes "cd"])) fresh
       = (Return (recordOf (TextDecoder.decode (ascii_bytes "StreamTitle='Y'"))),
          mkWorld n 1 1).
Proof.
  apply (padded_block_recovered 2
           (of_chunks [ascii_bytes "ab" ++ [Byte.x01] ++ ascii_bytes "StreamT";
                       ascii_bytes "itle='Y'" ++ [x00] ++ ascii_bytes "cd"])
           2
           [ascii_bytes "ab" ++ [Byte.x01] ++ ascii_bytes "StreamT";
            ascii_bytes "itle='Y'" ++ [x00] ++ ascii_bytes "cd"]
           (ascii_bytes "ab") (ascii_bytes "StreamTitle='Y'") (ascii_bytes "cd")
           Byte.x01 1).
  - lia.
  - repeat constructor; discriminate.
  - exact (proj1 (of_chunks_feeds _)).
  - simpl; lia.
  - reflexivity.
  - reflexivity.
  - reflexivity.
  - intros init H. apply (f_equal (fun l => last l Byte.x01)) in H.
    rewrite last_last in H. vm_compute in H. discriminate.
Defined.

Lemma to_N_inj (a b : byte) : Byte.to_N a = Byte.to_N b -> a = b.
Proof.
  intros H.
  assert (E : Byte.of_N (Byte.to_N a) = Byte.of_N (Byte.to_N b)) by (now rewrite H).
  rewrite !Byte.of_to_N in E. now inversion E.
Qed.

Lemma title_field_units (v post : list byte) :
  map Byte.to_N (title_field v post)
  = helpers.key ++ map Byte.to_N v ++ helpers.quote :: map Byte.to_N post.
Proof. unfold title_field. rewrite !map_app. reflexivity. Qed.

Lemma title_field_unpadded (v post : list byte) :
  (forall init, post <> init ++ [x00]) ->
  forall init, title_field v post <> init ++ [x00].
Proof.
  intros Hpost init H. unfold title_field in H.
  destruct post as [| b post] using rev_ind.
  - rewrite app_assoc in H. apply app_inj_tail in H.
    destruct H as [_ H]. discriminate.
  - clear IHpost.
    replace (ascii_bytes "StreamTitle='" ++ v ++ Byte.x27 :: post ++ [b])
      with ((ascii_bytes "StreamTitle='" ++ v ++ Byte.x27 :: post) ++ [b]) in H
      by (now rewrite <- !app_assoc).
    apply app_inj_tail in H. destruct H as [_ ->]. now apply (Hpost post).
Qed.

(** X11. The title a server sends comes back: when the block holds the
    ASCII text [StreamTitle='v'] followed by more ASCII text, [v] holding
    no quote, and is padded with NUL bytes to its declared length,
    [parseOnce] returns that text as the raw string and [v] as the
    title, however the bytes are cut into non-empty chunks. *)
Theorem title_round_trip (fuel : nat) (rd : Reader) (N : Z)
    (cs : list (list byte)) (audio v post rest : list byte) (lb : byte) (k : nat) :
  0 < N ->
  Forall nonempty cs ->
  delivers rd 0 cs ->
  (List.length cs <= fuel)%nat ->
  List.concat cs = audio ++ lb :: title_field v post ++ repeat x00 k ++ rest ->
  length_of audio = N ->
  length_of (title_field v post) + Z.of_nat k = byte_value lb * 16 ->
  ascii_only v ->
  ascii_only post ->
  ~ In Byte.x27 v ->
  (forall init, post <> init ++ [x00]) ->
  exists n,
    (n <= List.length cs)%nat
    /\ parseOnce fuel (mkResponse (Some (Int N)) rd) fresh
       = (Return {| raw := map Byte.to_N (title_field v post);
                    title := Some (map Byte.to_N v) |},
          mkWorld n 1 1).
Proof.
  intros HN Hcs Hd Hfuel Hbody Haudio Hlen Hv Hpost Hq Hend.
  destruct (parseOnce_padded_block fuel rd N cs audio (title_field v post) rest
              lb k HN Hcs Hd Hfuel Hbody Haudio Hlen
              (title_field_unpadded v post Hend)) as (n & Hn & Hrun).
  exists n. split; [exact Hn |]. rewrite Hrun. f_equal. f_equal.
  rewrite AsciiFacts.decode_ascii.
  - unfold recordOf, helpers.parseMetadata. cbn [helpers.title]. f_equal.
    rewrite title_field_units.
    apply (helpers_facts.exec1_leftmost [] (map Byte.to_N v) (map Byte.to_N post)).
    + intros p q _. simpl. lia.
    + intros Hin. apply in_map_iff in Hin. destruct Hin as (b & Hb & Hin).
      apply Hq. now rewrite <- (to_N_inj b Byte.x27 Hb).
  - unfold ascii_only, title_field in *.
    apply Forall_app. split; [repeat constructor; vm_compute; discriminate |].
    apply Forall_app. split; [assumption |].
    constructor; [vm_compute; discriminate | assumption].
Qed.

Lemma title_round_trip_witness :
  exists n,
    (n <= 2)%nat
    /\ parseOnce 2 (mkResponse (Some (Int 2))
         (of_chunks [ascii_bytes "ab" ++ [Byte.x01] ++ ascii_bytes "StreamT";
                     ascii_bytes "itle='Y';" ++ ascii_bytes "cd"])) fresh
       = (Return {| raw := map Byte.to_N (title_field (ascii_bytes "Y") (ascii_bytes ";"));
                    title := Some (map Byte.to_N (ascii_bytes "Y")) |},
          mkWorld n 1 1).
Proof.
  apply (title_round_trip 2
           (of_chunks [ascii_bytes "ab" ++ [Byte.x01] ++ ascii_bytes "StreamT";
                       ascii_bytes "itle='Y';" ++ ascii_bytes "cd"])
           2
           [ascii_bytes "ab" ++ [Byte.x01] ++ ascii_bytes "StreamT";
            ascii_bytes "itle='Y';" ++ ascii_bytes "cd"]
           (ascii_bytes "ab") (ascii_bytes "Y") (ascii_bytes ";") (ascii_bytes "cd")
           Byte.x01 0).
  - lia.
  - repeat constructor; discriminate.
  - exact (proj1 (of_chunks_feeds _)).
  - simpl; lia.
  - reflexivity.
  - reflexivity.
  - reflexivity.
  - repeat constructor; vm_compute; discriminate.
  - repeat constructor; vm_compute; discriminate.
  - intros [H | []]; discriminate.
  - intros init H. apply (f_equal (fun l => last l Byte.x01)) in H.
    rewrite last_last in H. vm_compute in H. discriminate.
Defined.

(** ** Text after the title *)

Module helpers_append.

Import helpers helpers_facts.

Lemma match_here_append (s t v : list N) :
  match_here s = Some v -> match_here (s ++ t) = Some v.
Proof.
  intros H. apply match_here_Some in H. destruct H as (post & -> & Hv).
  replace ((key ++ v ++ quote :: post) ++ t)
    with (key ++ v ++ quote :: (post ++ t))
    by (now rewrite <- !app_assoc).
  now apply match_here_app.
Qed.

Lemma starts_with_within (p s t r : list N) :
  starts_with p (s ++ t) = Some r ->
  (List.length p <= List.length s)%nat ->
  exists after, starts_with p s = Some after /\ r = after ++ t.
Proof.
  revert s. induction p as [| x p IH]; intros s H Hlen.
  - simpl in H. inversion H. exists s. now split.
  - destruct s as [| y s]; [simpl in Hlen; lia |].
    simpl in H |- *. destruct (x =? y)%N; [| discriminate].
    apply IH; [assumption | simpl in Hlen; lia].
Qed.

Lemma until_quote_In (s : list N) :
  In quote s -> exists v rest, until_quote s = (v, quote :: rest).
Proof.
  induction s as [| c s IH]; intros Hin; [destruct Hin |].
  cbn [until_quote]. destruct (N.eqb_spec c quote) as [-> | Hc].
  - now exists [], s.
  - destruct Hin as [Hin | Hin]; [congruence |].
    destruct (IH Hin) as (v & rest & ->). now exists (c :: v), rest.
Qed.

(** No match appears at an earlier index when text is appended. *)
Lemma no_earlier_match (c : N) (s t v : list N) :
  match_here (c :: s) = None ->
  exec1 s = Some v ->
  match_here (c :: s ++ t) = None.
Proof.
  intros Hnone Hexec.
  destruct (match_here (c :: s ++ t)) as [v' |] eqn:M; [| reflexivity].
  exfalso. unfold match_here in M.
  destruct (starts_with key (c :: s ++ t)) as [r |] eqn:K; [| discriminate].
  clear M. apply exec1_Some in Hexec.
  destruct Hexec as (pre & post & Hs & _).
  destruct (starts_with_within key (c :: s) t r K) as (after & Hk & _).
  { rewrite Hs. simpl. rewrite !length_app. simpl. lia. }
  assert (Hafter : c :: s = key ++ after) by (now apply starts_with_Some).
  assert (Hin : In quote after).
  { assert (E : after = skipn 13 (key ++ after)) by reflexivity.
    rewrite <- Hafter, Hs in E.
    replace (c :: pre ++ key ++ v ++ quote :: post)
      with ((c :: pre ++ key ++ v) ++ quote :: post) in E
      by (simpl; now rewrite <- !app_assoc).
    rewrite skipn_app in E.
    assert (L : (13 <= List.length (c :: pre ++ key ++ v))%nat).
    { change (List.length (c :: pre ++ key ++ v))
        with (S (List.length (pre ++ key ++ v))).
      rewrite !length_app. change (List.length key) with 13%nat. lia. }
    replace (13 - List.length (c :: pre ++ key ++ v))%nat with 0%nat in E
      by lia.
    rewrite E. apply in_or_app. right. now left. }
  destruct (until_quote_In after Hin) as (v2 & rest & Hu).
  unfold match_here in Hnone. rewrite Hk, Hu, N.eqb_refl in Hnone.
  discriminate.
Qed.

Lemma exec1_append (s t v : list N) :
  exec1 s = Some v -> exec1 (s ++ t) = Some v.
Proof.
  induction s as [| c s IH]; intros H.
  - vm_compute in H. discriminate.
  - rewrite exec1_eq in H. rewrite exec1_eq.
    destruct (match_here (c :: s)) as [v' |] eqn:M.
    + now rewrite (match_here_append _ t _ M).
    + change ((c :: s) ++ t) with (c :: s ++ t).
      rewrite (no_earlier_match c s t v M H). now apply IH.
Qed.

End helpers_append.

(** X12. Text that follows a matched title does not change it: once
    [parseMetadata] finds a title in a string, it finds the same title in
    every extension of that string, so fields sent after [StreamTitle]
    cannot alter or hide the title. *)
Theorem title_stable_under_append (raw0 more v : list N) :
  helpers.title (helpers.parseMetadata raw0) = Some v ->
  helpers.title (helpers.parseMetadata (raw0 ++ more)) = Some v.
Proof.
  unfold helpers.parseMetadata. cbn [helpers.title].
  apply helpers_append.exec1_append.
Qed.

Lemma title_stable_under_append_witness :
  helpers.title (helpers.parseMetadata
    (js "StreamTitle='A';" ++ js "StreamUrl='StreamTitle='B';"))
  = Some (js "A").
Proof.
  apply (title_stable_under_append (js "StreamTitle='A';")
           (js "StreamUrl='StreamTitle='B';") (js "A")).
  reflexivity.
Defined.
